(** * queryperf++ : the windowed dispatch engine (src/lib/dispatcher.cc)

    A shallow embedding of [Dispatcher], [Dispatcher::DispatcherImpl] and the
    file-local [QueryEvent], with the collaborators they call (message
    manager, socket, timers, query contexts, the C++ list and the DNS header
    parser) modelled at the interface the dispatcher uses. *)

From stdpp Require Import base numbers list strings.
From Stdlib Require Import ZArith Lia.
From Stdlib.Init Require Import Byte.

Local Open Scope Z_scope.

(** ** Fixed-width integers

    [qid_t] is the 16-bit DNS message identifier, [uint16_t] the port and
    [size_t] the counters (taken as 64 bits wide).  Values are kept in [Z];
    [++x] on an unsigned integer wraps at the width. *)

Definition QID_BITS : Z := 16.
Definition SIZE_BITS : Z := 64.
Definition QID_MOD : Z := 2 ^ QID_BITS.
Definition SIZE_MOD : Z := 2 ^ SIZE_BITS.

Abbreviation qid_t := Z (only parsing).
Abbreviation size_t := Z (only parsing).
Abbreviation uint16_t := Z (only parsing).

(** [++x] for [qid_t x] and for [size_t x]. *)
Definition qid_incr (x : qid_t) : qid_t := (x + 1) mod QID_MOD.
Definition size_incr (x : size_t) : size_t := (x + 1) mod SIZE_MOD.

(** ** boost::posix_time *)

Inductive ptime :=
| not_a_date_time
| neg_infin
| pos_infin
| time_point (microsec : Z).

(** [ptime::is_special]: everything but a proper time point.  A
    default-constructed [ptime] is [not_a_date_time]. *)
Definition is_special (t : ptime) : bool :=
  match t with
  | time_point _ => false
  | _ => true
  end.

(** Durations are counted in seconds. *)
Abbreviation time_duration := Z (only parsing).
Definition seconds (n : Z) : time_duration := n.

(** ** Collaborators

    query_context.h and message_manager.h are not among the sources.  The
    dispatcher only calls these classes; each is kept as the record of what
    was asked of it, so that every call the dispatcher makes can be read
    off the state afterwards. *)

(** What a query context hands back from [start]: the request of context
    [wire_ctx], the [wire_seq]-th of its sequence, rendered under the
    identifier [wire_qid]. *)
Record WireData := mkWire { wire_ctx : nat; wire_seq : nat; wire_qid : qid_t }.

(** A query context: its identity and how many requests it has rendered. *)
Record QueryContext := mkCtx { ctx_id : nat; ctx_started : nat }.

(** Modelled from the spec: [QueryContext::start] of query_context.h, which
    "serializes the next request for this context under the given
    identifier; may be called repeatedly, each call representing the next
    request in this context's sequence". *)
Definition QueryContext_start (c : QueryContext) (qid : qid_t)
  : QueryContext * WireData :=
  (mkCtx (ctx_id c) (S (ctx_started c)),
   mkWire (ctx_id c) (ctx_started c) qid).

(** The creator numbers the contexts it hands out. *)
Record QueryContextCreator := mkCreator { created : nat }.

(** Modelled from the spec: [QueryContextCreator::create] of
    query_context.h, which "produces a fresh, independent
    request-generation object". *)
Definition QueryContextCreator_create (cr : QueryContextCreator)
  : QueryContextCreator * QueryContext :=
  (mkCreator (S (created cr)), mkCtx (created cr) 0).

(** A timer remembers the durations it was started with, latest first. *)
Record MessageTimer := mkTimer { timer_started : list time_duration }.

(** Modelled from the spec: [MessageTimer::start] of message_manager.h,
    "arm with duration". *)
Definition MessageTimer_start (d : time_duration) (t : MessageTimer)
  : MessageTimer :=
  mkTimer (d :: timer_started t).

(** A socket remembers what was sent through it, latest first. *)
Record MessageSocket := mkSocket {
  sock_protocol : Z;
  sock_address : string;
  sock_port : uint16_t;
  sock_sent : list WireData
}.

(** Modelled from the spec: [MessageSocket::send] of message_manager.h,
    "Socket.send(bytes, length)". *)
Definition MessageSocket_send (w : WireData) (k : MessageSocket)
  : MessageSocket :=
  mkSocket (sock_protocol k) (sock_address k) (sock_port k) (w :: sock_sent k).

Definition IPPROTO_UDP : Z := 17.

(** The message manager: how many sockets and timers it created and how
    often [stop] was called on it. *)
Record MessageManager := mkMgr {
  sockets_created : nat;
  timers_created : nat;
  stop_calls : nat
}.

(** Modelled from the spec: [MessageManager::createMessageSocket] of
    message_manager.h, "createSocket(protocol, address, port, onReceive)
    -> Socket".  The callback is always [responseCallback]. *)
Definition createMessageSocket (proto : Z) (addr : string) (port : uint16_t)
    (m : MessageManager) : MessageManager * MessageSocket :=
  (mkMgr (S (sockets_created m)) (timers_created m) (stop_calls m),
   mkSocket proto addr port []).

(** Modelled from the spec: [MessageManager::createMessageTimer] of
    message_manager.h, "createTimer(onExpire) -> Timer". *)
Definition createMessageTimer (m : MessageManager)
  : MessageManager * MessageTimer :=
  (mkMgr (sockets_created m) (S (timers_created m)) (stop_calls m),
   mkTimer []).

(** Modelled from the spec: [MessageManager::stop] of message_manager.h;
    the loop "blocks until stop() is called from within a callback". *)
Definition MessageManager_stop (m : MessageManager) : MessageManager :=
  mkMgr (sockets_created m) (timers_created m) (S (stop_calls m)).

Definition stopped (m : MessageManager) : bool :=
  bool_decide (stop_calls m ≠ 0%nat).

(** ** isc::dns::Message, as far as the header goes

    The DNS library's [Message::parseHeader] wants the twelve octets of a
    DNS header and throws [MessageTooShort] on fewer; it reads six 16-bit
    fields in network order, the identifier first.  [getQid] returns the
    identifier. *)

Record Message := mkMessage {
  msg_qid : qid_t;
  msg_flags : Z;
  msg_counts : list Z;
  msg_header_parsed : bool
}.

Definition HEADERLEN : nat := 12.

Definition Message_clear : Message := mkMessage 0 0 [0; 0; 0; 0] false.

Definition octet (b : byte) : Z := Z.of_N (Byte.to_N b).

Definition readUint16 (hi lo : byte) : Z := octet hi * 256 + octet lo.

Definition parseHeader (buffer : list byte) : option Message :=
  match buffer with
  | i1 :: i0 :: f1 :: f0 :: q1 :: q0 :: a1 :: a0 :: n1 :: n0 :: r1 :: r0 :: _ =>
      Some (mkMessage (readUint16 i1 i0) (readUint16 f1 f0)
              [readUint16 q1 q0; readUint16 a1 a0;
               readUint16 n1 n0; readUint16 r1 r0] true)
  | _ => None
  end.

(** ** std::list

    The list is a ring of nodes closed by a sentinel; [end()] points at the
    sentinel.  An iterator is the position of its node: [0] for [begin()],
    [length l] for [end()].  [StdListNodes] below has the same operations
    on the linked nodes. *)

Module StdList.

Abbreviation iterator := nat (only parsing).

Definition end_ {A} (l : list A) : iterator := length l.

(** [std::find_if]: the first position whose element satisfies [p], or
    [end()]. *)
Fixpoint find_if {A} (p : A → bool) (l : list A) : iterator :=
  match l with
  | [] => 0%nat
  | x :: l' => if p x then 0%nat else S (find_if p l')
  end.

(** [erase(it)] unlinks the node at [it]. *)
Definition erase {A} (it : iterator) (l : list A) : list A := delete it l.

(** The ring of [l]: the element nodes in order, then the sentinel. *)
Definition ring {A} (l : list A) : list (option A) := (Some <$> l) ++ [None].

(** The node after [it] on the ring. *)
Definition next {A} (l : list A) (it : iterator) : iterator :=
  if decide (it = length l) then 0%nat else S it.

Definition is_sentinel {A} (n : option A) : bool :=
  match n with
  | None => true
  | Some _ => false
  end.

(** Reading a ring back as a list: the elements that follow the sentinel,
    all the way round. *)
Definition of_ring {A} (r : list (option A)) : list A :=
  let j := find_if is_sentinel r in
  omap id (drop (S j) r ++ take j r).

(** Unlink the node at [i] and link it in again before the node at [pos]. *)
Definition relink {A} (pos i : iterator) (r : list (option A))
  : list (option A) :=
  match r !! i with
  | Some n =>
      let r' := delete i r in
      let pos' := if decide (i < pos)%nat then pred pos else pos in
      take pos' r' ++ n :: drop pos' r'
  | None => r
  end.

(** [l.splice(pos, l, i)]: nothing to do when the node at [i] already
    stands before [pos] (or is [pos]); otherwise the node at [i] is
    relinked before [pos].  The implementations relink whatever node [i]
    points at; for [i = end()] that is the sentinel. *)
Definition splice {A} (pos i : iterator) (l : list A) : list A :=
  if decide (pos = i ∨ pos = next l i) then l
  else of_ring (relink pos i (ring l)).

End StdList.

(** ** QueryEvent: one slot of the window *)

Module QueryEvent.

Record t := mk {
  ctx_ : QueryContext;
  qid_ : qid_t;
  timer_ : MessageTimer
}.

(** The constructor takes the message manager to create its timer. *)
Definition new (mgr : MessageManager) (qid : qid_t) (ctx : QueryContext)
  : MessageManager * t :=
  let '(mgr, timer) := createMessageTimer mgr in
  (mgr, mk ctx qid timer).

(** [start(qid, timeout)]: take the identifier, start the timer, and let
    the context render its next request under that identifier. *)
Definition start (qid : qid_t) (timeout : time_duration) (ev : t)
  : t * WireData :=
  let timer := MessageTimer_start timeout (timer_ ev) in
  let '(ctx, data) := QueryContext_start (ctx_ ev) qid in
  (mk ctx qid timer, data).

Definition matchResponse (qid : qid_t) (ev : t) : bool :=
  bool_decide (qid_ ev = qid).

(** The slot is the object its timer calls back; it is told apart by the
    context it owns. *)
Definition this (ev : t) : nat := ctx_id (ctx_ ev).

End QueryEvent.

Abbreviation QueryEventPtr := QueryEvent.t (only parsing).

(** ** Dispatcher::DispatcherImpl *)

(** The defaults [initParams] reads.  [DEFAULT_SERVER] is defined in
    dispatcher.cc; the others are constants of dispatcher.h, which is not
    among the sources, and are taken as a parameter. *)
Definition DEFAULT_SERVER : string := "::1".

Record Defaults := mkDefaults {
  DEFAULT_WINDOW : size_t;
  DEFAULT_PORT : uint16_t;
  DEFAULT_DURATION : size_t;
  DEFAULT_QUERY_TIMEOUT : Z
}.

Record DispatcherImpl := mkImpl {
  msg_mgr_ : MessageManager;
  qryctx_creator_ : QueryContextCreator;
  udp_socket_ : option MessageSocket;
  session_timer_ : option MessageTimer;
  server_address_ : string;
  server_port_ : uint16_t;
  test_duration_ : size_t;
  query_timeout_ : time_duration;
  keep_sending_ : bool;
  window_ : size_t;
  qid_ : qid_t;
  response_ : Message;
  outstanding_ : list QueryEventPtr;
  queries_sent_ : size_t;
  queries_completed_ : size_t;
  start_time_ : ptime;
  end_time_ : ptime
}.

(** Assignments to single members. *)
Definition set_msg_mgr_ (v : MessageManager) (s : DispatcherImpl) :=
  mkImpl v (qryctx_creator_ s) (udp_socket_ s) (session_timer_ s)
    (server_address_ s) (server_port_ s) (test_duration_ s) (query_timeout_ s)
    (keep_sending_ s) (window_ s) (qid_ s) (response_ s) (outstanding_ s)
    (queries_sent_ s) (queries_completed_ s) (start_time_ s) (end_time_ s).
Definition set_qryctx_creator_ (v : QueryContextCreator) (s : DispatcherImpl) :=
  mkImpl (msg_mgr_ s) v (udp_socket_ s) (session_timer_ s)
    (server_address_ s) (server_port_ s) (test_duration_ s) (query_timeout_ s)
    (keep_sending_ s) (window_ s) (qid_ s) (response_ s) (outstanding_ s)
    (queries_sent_ s) (queries_completed_ s) (start_time_ s) (end_time_ s).
Definition set_udp_socket_ (v : option MessageSocket) (s : DispatcherImpl) :=
  mkImpl (msg_mgr_ s) (qryctx_creator_ s) v (session_timer_ s)
    (server_address_ s) (server_port_ s) (test_duration_ s) (query_timeout_ s)
    (keep_sending_ s) (window_ s) (qid_ s) (response_ s) (outstanding_ s)
    (queries_sent_ s) (queries_completed_ s) (start_time_ s) (end_time_ s).
Definition set_session_timer_ (v : option MessageTimer) (s : DispatcherImpl) :=
  mkImpl (msg_mgr_ s) (qryctx_creator_ s) (udp_socket_ s) v
    (server_address_ s) (server_port_ s) (test_duration_ s) (query_timeout_ s)
    (keep_sending_ s) (window_ s) (qid_ s) (response_ s) (outstanding_ s)
    (queries_sent_ s) (queries_completed_ s) (start_time_ s) (end_time_ s).
Definition set_server_address_ (v : string) (s : DispatcherImpl) :=
  mkImpl (msg_mgr_ s) (qryctx_creator_ s) (udp_socket_ s) (session_timer_ s)
    v (server_port_ s) (test_duration_ s) (query_timeout_ s)
    (keep_sending_ s) (window_ s) (qid_ s) (response_ s) (outstanding_ s)
    (queries_sent_ s) (queries_completed_ s) (start_time_ s) (end_time_ s).
Definition set_server_port_ (v : uint16_t) (s : DispatcherImpl) :=
  mkImpl (msg_mgr_ s) (qryctx_creator_ s) (udp_socket_ s) (session_timer_ s)
    (server_address_ s) v (test_duration_ s) (query_timeout_ s)
    (keep_sending_ s) (window_ s) (qid_ s) (response_ s) (outstanding_ s)
    (queries_sent_ s) (queries_completed_ s) (start_time_ s) (end_time_ s).
Definition set_test_duration_ (v : size_t) (s : DispatcherImpl) :=
  mkImpl (msg_mgr_ s) (qryctx_creator_ s) (udp_socket_ s) (session_timer_ s)
    (server_address_ s) (server_port_ s) v (query_timeout_ s)
    (keep_sending_ s) (window_ s) (qid_ s) (response_ s) (outstanding_ s)
    (queries_sent_ s) (queries_completed_ s) (start_time_ s) (end_time_ s).
Definition set_query_timeout_ (v : time_duration) (s : DispatcherImpl) :=
  mkImpl (msg_mgr_ s) (qryctx_creator_ s) (udp_socket_ s) (session_timer_ s)
    (server_address_ s) (server_port_ s) (test_duration_ s) v
    (keep_sending_ s) (window_ s) (qid_ s) (response_ s) (outstanding_ s)
    (queries_sent_ s) (queries_completed_ s) (start_time_ s) (end_time_ s).
Definition set_window_ (v : size_t) (s : DispatcherImpl) :=
  mkImpl (msg_mgr_ s) (qryctx_creator_ s) (udp_socket_ s) (session_timer_ s)
    (server_address_ s) (server_port_ s) (test_duration_ s) (query_timeout_ s)
    (keep_sending_ s) v (qid_ s) (response_ s) (outstanding_ s)
    (queries_sent_ s) (queries_completed_ s) (start_time_ s) (end_time_ s).
Definition set_keep_sending_ (v : bool) (s : DispatcherImpl) :=
  mkImpl (msg_mgr_ s) (qryctx_creator_ s) (udp_socket_ s) (session_timer_ s)
    (server_address_ s) (server_port_ s) (test_duration_ s) (query_timeout_ s)
    v (window_ s) (qid_ s) (response_ s) (outstanding_ s)
    (queries_sent_ s) (queries_completed_ s) (start_time_ s) (end_time_ s).
Definition set_qid_ (v : qid_t) (s : DispatcherImpl) :=
  mkImpl (msg_mgr_ s) (qryctx_creator_ s) (udp_socket_ s) (session_timer_ s)
    (server_address_ s) (server_port_ s) (test_duration_ s) (query_timeout_ s)
    (keep_sending_ s) (window_ s) v (response_ s) (outstanding_ s)
    (queries_sent_ s) (queries_completed_ s) (start_time_ s) (end_time_ s).
Definition set_response_ (v : Message) (s : DispatcherImpl) :=
  mkImpl (msg_mgr_ s) (qryctx_creator_ s) (udp_socket_ s) (session_timer_ s)
    (server_address_ s) (server_port_ s) (test_duration_ s) (query_timeout_ s)
    (keep_sending_ s) (window_ s) (qid_ s) v (outstanding_ s)
    (queries_sent_ s) (queries_completed_ s) (start_time_ s) (end_time_ s).
Definition set_outstanding_ (v : list QueryEventPtr) (s : DispatcherImpl) :=
  mkImpl (msg_mgr_ s) (qryctx_creator_ s) (udp_socket_ s) (session_timer_ s)
    (server_address_ s) (server_port_ s) (test_duration_ s) (query_timeout_ s)
    (keep_sending_ s) (window_ s) (qid_ s) (response_ s) v
    (queries_sent_ s) (queries_completed_ s) (start_time_ s) (end_time_ s).
Definition set_queries_sent_ (v : size_t) (s : DispatcherImpl) :=
  mkImpl (msg_mgr_ s) (qryctx_creator_ s) (udp_socket_ s) (session_timer_ s)
    (server_address_ s) (server_port_ s) (test_duration_ s) (query_timeout_ s)
    (keep_sending_ s) (window_ s) (qid_ s) (response_ s) (outstanding_ s)
    v (queries_completed_ s) (start_time_ s) (end_time_ s).
Definition set_queries_completed_ (v : size_t) (s : DispatcherImpl) :=
  mkImpl (msg_mgr_ s) (qryctx_creator_ s) (udp_socket_ s) (session_timer_ s)
    (server_address_ s) (server_port_ s) (test_duration_ s) (query_timeout_ s)
    (keep_sending_ s) (window_ s) (qid_ s) (response_ s) (outstanding_ s)
    (queries_sent_ s) v (start_time_ s) (end_time_ s).
Definition set_start_time_ (v : ptime) (s : DispatcherImpl) :=
  mkImpl (msg_mgr_ s) (qryctx_creator_ s) (udp_socket_ s) (session_timer_ s)
    (server_address_ s) (server_port_ s) (test_duration_ s) (query_timeout_ s)
    (keep_sending_ s) (window_ s) (qid_ s) (response_ s) (outstanding_ s)
    (queries_sent_ s) (queries_completed_ s) v (end_time_ s).
Definition set_end_time_ (v : ptime) (s : DispatcherImpl) :=
  mkImpl (msg_mgr_ s) (qryctx_creator_ s) (udp_socket_ s) (session_timer_ s)
    (server_address_ s) (server_port_ s) (test_duration_ s) (query_timeout_ s)
    (keep_sending_ s) (window_ s) (qid_ s) (response_ s) (outstanding_ s)
    (queries_sent_ s) (queries_completed_ s) (start_time_ s) v.

(** ** Outcomes of a call

    A call returns, throws, trips an [assert], or is still inside the
    event loop when the scheduled events have all been delivered. *)

Inductive exn :=
| DispatcherError (what : string)
| MessageTooShort.

Inductive outcome (A : Type) :=
| Return (a : A) (s : DispatcherImpl)
| Throw (e : exn) (s : DispatcherImpl)
| AssertFailed (s : DispatcherImpl)
| Blocked (s : DispatcherImpl).
Arguments Return {A} a s.
Arguments Throw {A} e s.
Arguments AssertFailed {A} s.
Arguments Blocked {A} s.

Definition M (A : Type) := DispatcherImpl → outcome A.

Definition ret {A} (a : A) : M A := λ s, Return a s.

Definition bind {A B} (c : M A) (k : A → M B) : M B :=
  λ s, match c s with
       | Return a s' => k a s'
       | Throw e s' => Throw e s'
       | AssertFailed s' => AssertFailed s'
       | Blocked s' => Blocked s'
       end.

Definition throw {A} (e : exn) : M A := λ s, Throw e s.
Definition assert (b : DispatcherImpl → bool) : M unit :=
  λ s, if b s then Return tt s else AssertFailed s.
Definition get {A} (f : DispatcherImpl → A) : M A := λ s, Return (f s) s.
Definition modify (f : DispatcherImpl → DispatcherImpl) : M unit :=
  λ s, Return tt (f s).

#[global] Instance M_ret : MRet M := @ret.
#[global] Instance M_bind : MBind M := λ A B k c, bind c k.

(** The state a call leaves behind, however it ended. *)
Definition state_of {A} (r : outcome A) : DispatcherImpl :=
  match r with
  | Return _ s | Throw _ s | AssertFailed s | Blocked s => s
  end.

(** ** The methods of DispatcherImpl *)

Definition initParams (d : Defaults) (s : DispatcherImpl) : DispatcherImpl :=
  let s := set_keep_sending_ true s in
  let s := set_window_ (DEFAULT_WINDOW d) s in
  let s := set_qid_ 0 s in
  let s := set_queries_sent_ 0 s in
  let s := set_queries_completed_ 0 s in
  let s := set_server_address_ DEFAULT_SERVER s in
  let s := set_server_port_ (DEFAULT_PORT d) s in
  let s := set_test_duration_ (DEFAULT_DURATION d) s in
  set_query_timeout_ (seconds (DEFAULT_QUERY_TIMEOUT d)) s.

(** The constructor from a message manager and a context creator: no
    socket and no session timer yet, an empty window, both times
    [not_a_date_time], and the members [initParams] assigns.  (The other
    constructor builds its own collaborators from a data file, which may
    throw before there is a dispatcher, and leaves the same members.) *)
Definition DispatcherImpl_new (d : Defaults) (msg_mgr : MessageManager)
    (ctx_creator : QueryContextCreator) : DispatcherImpl :=
  initParams d
    (mkImpl msg_mgr ctx_creator None None EmptyString 0 0 0 false 0 0
       Message_clear [] 0 0 not_a_date_time not_a_date_time).

Definition sessionTimerCallback (s : DispatcherImpl) : DispatcherImpl :=
  set_keep_sending_ false s.

(** [udp_socket_->send(...)] *)
Definition socket_send (data : WireData) (s : DispatcherImpl)
  : DispatcherImpl :=
  set_udp_socket_ (MessageSocket_send data <$> udp_socket_ s) s.

Definition restartQuery (qid : qid_t) (response : option Message)
    (s : DispatcherImpl) : DispatcherImpl :=
  let qev_it := StdList.find_if (QueryEvent.matchResponse qid) (outstanding_ s) in
  match outstanding_ s !! qev_it with
  | Some qev =>
      (* qev_it != outstanding_.end(), and qev is *qev_it *)
      let s :=
        match response with
        | Some _ => set_queries_completed_ (size_incr (queries_completed_ s)) s
        | None => s
        end in
      if keep_sending_ s then
        let '(qev, qry_data) :=
          QueryEvent.start (qid_ s) (query_timeout_ s) qev in
        let s := set_outstanding_ (<[qev_it := qev]> (outstanding_ s)) s in
        let s := socket_send qry_data s in
        let s := set_queries_sent_ (size_incr (queries_sent_ s)) s in
        let s := set_qid_ (qid_incr (qid_ s)) s in
        set_outstanding_
          (StdList.splice qev_it (StdList.end_ (outstanding_ s))
             (outstanding_ s)) s
      else
        let s := set_outstanding_ (StdList.erase qev_it (outstanding_ s)) s in
        if bool_decide (outstanding_ s = []) then
          set_msg_mgr_ (MessageManager_stop (msg_mgr_ s)) s
        else s
  | None =>
      (* qev_it == outstanding_.end(): the mismatch is not recorded *)
      s
  end.

Definition responseCallback (sockev : list byte) : M unit :=
  modify (set_response_ Message_clear) ;;
  match parseHeader sockev with
  | Some m => modify (set_response_ m)
  | None => throw MessageTooShort
  end ;;
  modify (λ s, restartQuery (msg_qid (response_ s)) (Some (response_ s)) s).

(** [QueryEvent::queryTimerCallback], through the restart callback the
    slot was built with.  (The line it prints is left out.) *)
Definition queryTimerCallback (qev : QueryEventPtr) (s : DispatcherImpl)
  : DispatcherImpl :=
  restartQuery (QueryEvent.qid_ qev) None s.

(** The pool of [run]: [n] more slots, each with a fresh context. *)
Fixpoint create_pool (n : nat) (s : DispatcherImpl) : DispatcherImpl :=
  match n with
  | O => s
  | S n' =>
      let '(creator, ctx) := QueryContextCreator_create (qryctx_creator_ s) in
      let '(mgr, qev) := QueryEvent.new (msg_mgr_ s) 0 ctx in
      let s := set_qryctx_creator_ creator s in
      let s := set_msg_mgr_ mgr s in
      create_pool n' (set_outstanding_ (outstanding_ s ++ [qev]) s)
  end.

(** The initial queries of [run]: every slot is started in list order. *)
Fixpoint dispatch_initial (l : list QueryEventPtr) (s : DispatcherImpl)
  : list QueryEventPtr * DispatcherImpl :=
  match l with
  | [] => ([], s)
  | qev :: l' =>
      let '(qev, qry_data) :=
        QueryEvent.start (qid_ s) (query_timeout_ s) qev in
      let s := socket_send qry_data s in
      let s := set_queries_sent_ (size_incr (queries_sent_ s)) s in
      let s := set_qid_ (qid_incr (qid_ s)) s in
      let '(l', s) := dispatch_initial l' s in
      (qev :: l', s)
  end.

(** [DispatcherImpl::run] up to the call of [msg_mgr_->run()]; [now] is
    what the clock reads when the start time is taken. *)
Definition run_setup (now : Z) (s : DispatcherImpl) : DispatcherImpl :=
  let '(mgr, sock) :=
    createMessageSocket IPPROTO_UDP (server_address_ s) (server_port_ s)
      (msg_mgr_ s) in
  let s := set_udp_socket_ (Some sock) (set_msg_mgr_ mgr s) in
  let '(mgr, timer) := createMessageTimer (msg_mgr_ s) in
  let s := set_session_timer_ (Some timer) (set_msg_mgr_ mgr s) in
  let s :=
    set_session_timer_
      (MessageTimer_start (seconds (test_duration_ s)) <$> session_timer_ s)
      s in
  let s := create_pool (Z.to_nat (window_ s)) s in
  let s := set_start_time_ (time_point now) s in
  let '(l, s) := dispatch_initial (outstanding_ s) s in
  set_outstanding_ l s.

(** ** The event loop of the message manager

    Modelled from the spec: the loop of message_manager.h, which
    "dispatches [each ready event] synchronously to one callback, which
    runs to completion before the loop polls again" and "blocks until
    stop() is called from within a callback".  What the loop may deliver:
    a datagram on the socket, the expiry of the timer of a slot, the
    expiry of the session timer. *)

Inductive Event :=
| SocketEvent (data : list byte)
| QueryTimerExpired (slot : nat)
| SessionTimerExpired.

(** One event delivered to its callback.  The timer of a slot calls the
    slot back; a slot that has been erased took its timer with it. *)
Definition deliver (ev : Event) : M unit :=
  match ev with
  | SocketEvent data => responseCallback data
  | QueryTimerExpired slot =>
      λ s,
        match list_find (λ qev, QueryEvent.this qev = slot) (outstanding_ s) with
        | Some (_, qev) => Return tt (queryTimerCallback qev s)
        | None => Return tt s
        end
  | SessionTimerExpired => modify sessionTimerCallback
  end.

(** [msg_mgr_->run()]: callbacks one at a time until [stop] was called;
    an exception thrown by a callback leaves the loop.  When the events of
    [evs] are used up before that, the call is still blocked in the loop. *)
Fixpoint MessageManager_run (evs : list Event) (s : DispatcherImpl)
  : outcome unit :=
  if stopped (msg_mgr_ s) then Return tt s
  else
    match evs with
    | [] => Blocked s
    | ev :: evs' =>
        match deliver ev s with
        | Return _ s' => MessageManager_run evs' s'
        | r => r
        end
    end.

Definition DispatcherImpl_run (now : Z) (evs : list Event) : M unit :=
  modify (run_setup now) ;; MessageManager_run evs.

(** ** The public surface *)

Module Dispatcher.

Definition new := DispatcherImpl_new.

(** [start] and [finish] are the two readings of the clock. *)
Definition run (start finish : Z) (evs : list Event) : M unit :=
  assert (λ impl_, bool_decide (udp_socket_ impl_ = None)) ;;
  DispatcherImpl_run start evs ;;
  modify (set_end_time_ (time_point finish)).

Definition getServerAddress : M string := get server_address_.

Definition setServerAddress (address : string) : M unit :=
  λ impl_,
    if negb (is_special (start_time_ impl_)) then
      Throw (DispatcherError "server address cannot be reset after run()") impl_
    else Return tt (set_server_address_ address impl_).

Definition getServerPort : M uint16_t := get server_port_.

Definition setServerPort (port : uint16_t) : M unit :=
  λ impl_,
    if negb (is_special (start_time_ impl_)) then
      Throw (DispatcherError "server port cannot be reset after run()") impl_
    else Return tt (set_server_port_ port impl_).

Definition getTestDuration : M size_t := get test_duration_.

Definition setTestDuration (duration : size_t) : M unit :=
  λ impl_,
    if negb (is_special (start_time_ impl_)) then
      Throw (DispatcherError "test duration cannot be reset after run()") impl_
    else Return tt (set_test_duration_ duration impl_).

Definition getQueriesSent : M size_t := get queries_sent_.
Definition getQueriesCompleted : M size_t := get queries_completed_.
Definition getStartTime : M ptime := get start_time_.
Definition getEndTime : M ptime := get end_time_.

End Dispatcher.

(** ** std::list at the level of its nodes

    The node operations behind [splice], as the list implementations have
    them, to check the positional reading of [StdList] against.  Nodes are
    numbered; node [0] is the sentinel, which [end()] points at, and the
    [k]-th element of the list lives in node [k]. *)

Module StdListNodes.
Local Open Scope nat_scope.

Record nodes := mkNodes { M_next : nat → nat; M_prev : nat → nat }.

Definition store (f : nat → nat) (node v : nat) : nat → nat :=
  λ n, if decide (n = node) then v else f n.

Definition set_next (node v : nat) (r : nodes) : nodes :=
  mkNodes (store (M_next r) node v) (M_prev r).

Definition set_prev (node v : nat) (r : nodes) : nodes :=
  mkNodes (M_next r) (store (M_prev r) node v).

(** [this->_M_transfer(first, last)]: move the nodes from [first] up to,
    not including, [last] before [this]. *)
Definition M_transfer (this first last : nat) (r : nodes) : nodes :=
  if decide (this = last) then r
  else
    (* remove [first, last) from its old position *)
    let r := set_next (M_prev r last) this r in
    let r := set_next (M_prev r first) last r in
    let r := set_next (M_prev r this) first r in
    (* splice [first, last) into its new position *)
    let tmp := M_prev r this in
    let r := set_prev this (M_prev r last) r in
    let r := set_prev last (M_prev r first) r in
    set_prev first tmp r.

(** [splice(position, x, i)]: [j] is [i] advanced once; nothing is done
    when [position] is [i] or [j]. *)
Definition splice (position i : nat) (r : nodes) : nodes :=
  let j := M_next r i in
  if decide (position = i ∨ position = j) then r
  else M_transfer position i j r.

(** The list of [n] elements: the elements in nodes [1..n], closed into a
    ring by the sentinel. *)
Definition of_length (n : nat) : nodes :=
  mkNodes (λ k, if decide (k = n) then 0 else S k)
          (λ k, if decide (k = 0) then n else pred k).

(** The node an iterator at position [p] points at. *)
Definition node_at (n p : nat) : nat := if decide (p < n) then S p else 0.

(** Walking from [begin()] to [end()]. *)
Fixpoint walk (fuel : nat) (r : nodes) (node : nat) : list nat :=
  match fuel with
  | O => []
  | S fuel =>
      if decide (node = 0) then [] else node :: walk fuel r (M_next r node)
  end.

Definition to_list (n : nat) (r : nodes) : list nat :=
  walk (S n) r (M_next r 0).

End StdListNodes.

(** * The terms the properties are stated in *)

Definition no_match (qid : qid_t) (l : list QueryEventPtr) : Prop :=
  Forall (λ ev, QueryEvent.matchResponse qid ev = false) l.

(** [++queries_completed_] when there is a response. *)
Definition completed_after (response : option Message) (n : size_t) : size_t :=
  match response with
  | Some _ => size_incr n
  | None => n
  end.

(** The run has started once the start time is a proper time. *)
Definition started (s : DispatcherImpl) : Prop :=
  is_special (start_time_ s) = false.

(** What the claim asks of a setter [set] called on [s], where [updated]
    is the dispatcher the call is to leave behind and [getter] the
    accessor of the member, which is to return [v] from then on. *)
Definition fails_iff_started {V} (set : M unit) (getter : M V) (v : V)
    (updated : DispatcherImpl) (s : DispatcherImpl) : Prop :=
  ((∃ e s', set s = Throw e s') ↔ started s) ∧
  (∀ e s', set s = Throw e s' → s' = s ∧ ∃ what, e = DispatcherError what) ∧
  (¬ started s →
   set s = Return tt updated ∧ getter updated = Return v updated).

(** The slots the pool loop creates, numbered from [c]. *)
Definition fresh_slots (c n : nat) : list QueryEventPtr :=
  (λ i, QueryEvent.mk (mkCtx i 0) 0 (mkTimer [])) <$> seq c n.

(** The slots of [l] once started one after the other from identifier [q],
    and the requests this sends, first to last. *)
Fixpoint started_slots (q : qid_t) (t : time_duration) (l : list QueryEventPtr)
  : list QueryEventPtr :=
  match l with
  | [] => []
  | x :: l' => (QueryEvent.start q t x).1 :: started_slots (qid_incr q) t l'
  end.

Fixpoint initial_queries (q : qid_t) (t : time_duration)
    (l : list QueryEventPtr) : list WireData :=
  match l with
  | [] => []
  | x :: l' => (QueryEvent.start q t x).2 :: initial_queries (qid_incr q) t l'
  end.

(** The restarts of a list of calls, first to last. *)
Definition restart_all (calls : list (qid_t * option Message))
    (s : DispatcherImpl) : DispatcherImpl :=
  foldl (λ s c, restartQuery c.1 c.2 s) s calls.

(** The events of a list delivered one after the other, whatever each
    delivery ends in. *)
Definition deliver_all (evs : list Event) (s : DispatcherImpl)
  : DispatcherImpl :=
  foldl (λ s ev, state_of (deliver ev s)) s evs.

(** What stays as it is while no request is sent. *)
Definition nothing_sent (s s' : DispatcherImpl) : Prop :=
  keep_sending_ s' = false ∧
  queries_sent_ s' = queries_sent_ s ∧
  qid_ s' = qid_ s ∧
  udp_socket_ s' = udp_socket_ s ∧
  outstanding_ s' `sublist_of` outstanding_ s.

(** A dispatcher on which run has not been called: constructed, possibly
    configured. *)
Definition pristine (s : DispatcherImpl) : Prop :=
  udp_socket_ s = None ∧ outstanding_ s = [] ∧ qid_ s = 0 ∧
  queries_sent_ s = 0 ∧ queries_completed_ s = 0 ∧
  0 ≤ window_ s < SIZE_MOD.

(** The states the dispatcher can be in: constructed, configured, set up
    by run, after any event delivered, after run has returned. *)
Inductive reachable : DispatcherImpl → Prop :=
| reach_new d mgr cr : reachable (DispatcherImpl_new d mgr cr)
| reach_setServerAddress address s :
    reachable s → reachable (state_of (Dispatcher.setServerAddress address s))
| reach_setServerPort port s :
    reachable s → reachable (state_of (Dispatcher.setServerPort port s))
| reach_setTestDuration duration s :
    reachable s → reachable (state_of (Dispatcher.setTestDuration duration s))
| reach_run_setup now s :
    reachable s → udp_socket_ s = None → reachable (run_setup now s)
| reach_deliver ev s :
    reachable s → reachable (state_of (deliver ev s))
| reach_return finish s :
    reachable s → reachable (set_end_time_ (time_point finish) s).

(** How many requests have gone out through the socket. *)
Definition sent_total (s : DispatcherImpl) : Z :=
  match udp_socket_ s with
  | Some k => Z.of_nat (length (sock_sent k))
  | None => 0
  end.

(** The counters follow the number [c] of completions and the number of
    requests sent, each modulo the width of [size_t]; every completion and
    every slot of the window stands for a request sent. *)
Definition counters_inv (s : DispatcherImpl) : Prop :=
  ∃ c : Z,
    0 ≤ c ∧
    queries_completed_ s = c mod SIZE_MOD ∧
    queries_sent_ s = sent_total s mod SIZE_MOD ∧
    c + Z.of_nat (length (outstanding_ s)) ≤ sent_total s ∧
    (udp_socket_ s = None → outstanding_ s = []).

(** ** Dispatchers to try things on

    A window of three, newly constructed, just set up by run, and with
    the session timer fired; a window as wide as the identifier space; and
    a window of one slot, which answers one response and then times out
    [k] times over. *)

Definition example_defaults : Defaults := mkDefaults 3 53 30 5.

Definition example_new : DispatcherImpl :=
  DispatcherImpl_new example_defaults (mkMgr 0 0 0) (mkCreator 0).

Definition example_running : DispatcherImpl := run_setup 1000 example_new.

Definition example_draining : DispatcherImpl :=
  sessionTimerCallback example_running.

(** A dispatcher whose window is as wide as the identifier space. *)
Definition example_wide : DispatcherImpl :=
  DispatcherImpl_new (mkDefaults 65536 53 30 5) (mkMgr 0 0 0)
    (mkCreator 0).

Definition example_single : DispatcherImpl :=
  run_setup 1000
    (DispatcherImpl_new (mkDefaults 1 53 30 5) (mkMgr 0 0 0)
       (mkCreator 0)).

Definition example_answered : DispatcherImpl :=
  state_of (deliver (SocketEvent (replicate 12 "000"%byte)) example_single).

Definition timeouts (k : nat) : DispatcherImpl :=
  Nat.iter k (λ s, state_of (deliver (QueryTimerExpired 0) s)) example_answered.

(** The window of three drained down to its last slot, the one with
    identifier 2, and a datagram that answers it. *)
Definition example_last_slot : DispatcherImpl :=
  deliver_all [SessionTimerExpired; QueryTimerExpired 1; QueryTimerExpired 0]
    example_running.

Definition example_reply : list byte :=
  ("000" :: "002" :: replicate 10 "000")%byte.

(** ** Terms of the further properties *)

(** What went out through the socket, latest first. *)
Definition sent_log (s : DispatcherImpl) : list WireData :=
  match udp_socket_ s with
  | Some k => sock_sent k
  | None => []
  end.

(** The members no callback is meant to touch: the configuration, the two
    times, the session timer and the context creator. *)
Definition same_configuration (s s' : DispatcherImpl) : Prop :=
  server_address_ s' = server_address_ s ∧
  server_port_ s' = server_port_ s ∧
  test_duration_ s' = test_duration_ s ∧
  query_timeout_ s' = query_timeout_ s ∧
  window_ s' = window_ s ∧
  start_time_ s' = start_time_ s ∧
  end_time_ s' = end_time_ s ∧
  session_timer_ s' = session_timer_ s ∧
  qryctx_creator_ s' = qryctx_creator_ s.

(** The timers of the slots of [l] expiring one after the other, in the
    order of [l]. *)
Definition timeouts_of (l : list QueryEventPtr) : list Event :=
  (λ qev, QueryTimerExpired (QueryEvent.this qev)) <$> l.

(** The identifiers the slots of a window carry. *)
Definition window_ids (s : DispatcherImpl) : list qid_t :=
  QueryEvent.qid_ <$> outstanding_ s.

(** The slots of a window are among the slots [ids], and are all of them
    while sending is on. *)
Definition window_within (ids : list nat) (s : DispatcherImpl) : Prop :=
  QueryEvent.this <$> outstanding_ s ⊆+ ids ∧
  (keep_sending_ s = true → QueryEvent.this <$> outstanding_ s ≡ₚ ids).

(** What holds of the identifiers in every reachable state: the send
    counter is the number of requests sent, modulo 2^16; the requests went
    out under 0, 1, 2, ... modulo 2^16; and up to 2^16 requests the window
    holds identifiers already sent, each once. *)
Definition flight_inv (s : DispatcherImpl) : Prop :=
  (udp_socket_ s = None → outstanding_ s = []) ∧
  qid_ s = Z.of_nat (length (sent_log s)) mod QID_MOD ∧
  (∀ (i : nat) w, rev (sent_log s) !! i = Some w →
                  wire_qid w = Z.of_nat i mod QID_MOD) ∧
  (Z.of_nat (length (sent_log s)) ≤ QID_MOD →
   NoDup (window_ids s) ∧
   Forall (λ q, 0 ≤ q < Z.of_nat (length (sent_log s))) (window_ids s)).

(** Every request sent has completed or is still outstanding: [c]
    completions and the slots of the window add up to the requests sent. *)
Definition accounted (s : DispatcherImpl) : Prop :=
  ∃ c : Z,
    0 ≤ c ∧
    queries_completed_ s = c mod SIZE_MOD ∧
    queries_sent_ s = sent_total s mod SIZE_MOD ∧
    c + Z.of_nat (length (outstanding_ s)) = sent_total s ∧
    (udp_socket_ s = None → outstanding_ s = []).

(** Every slot of the window has a context of its own, handed out by the
    creator before now. *)
Definition slots_inv (s : DispatcherImpl) : Prop :=
  NoDup (QueryEvent.this <$> outstanding_ s) ∧
  Forall (λ i, (i < created (qryctx_creator_ s))%nat)
    (QueryEvent.this <$> outstanding_ s).

(** A slot whose timer was started with the timeout [t], once for every
    request its context has rendered. *)
Definition slot_armed (t : time_duration) (ev : QueryEventPtr) : Prop :=
  timer_started (QueryEvent.timer_ ev)
  = replicate (ctx_started (QueryEvent.ctx_ ev)) t.

(** Every slot of the window is armed with the query timeout, and once
    the socket is there every slot has a request out. *)
Definition timers_inv (s : DispatcherImpl) : Prop :=
  Forall (slot_armed (query_timeout_ s)) (outstanding_ s) ∧
  (is_Some (udp_socket_ s) →
   Forall (λ ev, (0 < ctx_started (QueryEvent.ctx_ ev))%nat) (outstanding_ s)).

(** * Properties *)

(** Unfolds the member assignments. *)
Ltac setters :=
  unfold socket_send, set_msg_mgr_, set_qryctx_creator_, set_udp_socket_,
    set_session_timer_, set_server_address_, set_server_port_,
    set_test_duration_, set_query_timeout_, set_window_, set_keep_sending_,
    set_qid_, set_response_,
    set_outstanding_, set_queries_sent_, set_queries_completed_,
    set_start_time_, set_end_time_ in *; simpl in *.

(** ** The list operations *)

Module StdListFacts.
Import StdList.

Lemma find_if_le {A} (p : A → bool) l : (find_if p l ≤ length l)%nat.
Proof. induction l as [|x l IH]; simpl; [lia|]. destruct (p x); lia. Qed.

Lemma find_if_app {A} (p : A → bool) l1 x l2 :
  Forall (λ y, p y = false) l1 → p x = true →
  find_if p (l1 ++ x :: l2) = length l1.
Proof.
  intros Hl1 Hx. induction Hl1 as [|y l1 Hy _ IH]; simpl.
  - by rewrite Hx.
  - by rewrite Hy, IH.
Qed.

Lemma find_if_none {A} (p : A → bool) l :
  Forall (λ y, p y = false) l → find_if p l = end_ l.
Proof.
  unfold end_. induction 1 as [|y l Hy _ IH]; simpl; [done|].
  by rewrite Hy, IH.
Qed.

Lemma find_if_split {A} (p : A → bool) l x :
  l !! find_if p l = Some x →
  ∃ l1 l2, l = l1 ++ x :: l2 ∧ Forall (λ y, p y = false) l1 ∧ p x = true.
Proof.
  induction l as [|y l IH]; simpl; [done|].
  destruct (p y) eqn:Hy; simpl.
  - intros [= ->]. by exists [], l.
  - intros (l1 & l2 & -> & Hl1 & Hx)%IH.
    exists (y :: l1), l2. split_and!; [done|by constructor|done].
Qed.

Lemma find_if_end {A} (p : A → bool) l :
  l !! find_if p l = None ↔ find_if p l = end_ l.
Proof.
  unfold end_. rewrite lookup_ge_None. pose proof (find_if_le p l). lia.
Qed.

Lemma find_if_end_Forall {A} (p : A → bool) l :
  find_if p l = end_ l → Forall (λ y, p y = false) l.
Proof.
  unfold end_. induction l as [|y l IH]; simpl; [constructor|].
  destruct (p y) eqn:Hy; [done|]. intros [= ?]. constructor; auto.
Qed.

Lemma omap_id_Some {A} (l : list A) : omap id (Some <$> l) = l.
Proof. induction l as [|x l IH]; csimpl; [done|]. by f_equal. Qed.

Lemma Forall_not_sentinel {A} (l : list A) :
  Forall (λ n, is_sentinel n = false) (Some <$> l).
Proof. induction l; csimpl; by constructor. Qed.

(** Relinking the sentinel before [pos] turns the list round so that it
    begins at [pos]. *)
Lemma splice_end {A} (l : list A) (pos : nat) :
  (pos ≤ length l)%nat →
  splice pos (end_ l) l = drop pos l ++ take pos l.
Proof.
  intros Hpos. unfold splice, end_, next.
  rewrite (decide_True (P := length l = length l)) by done.
  case_decide as Hd.
  - destruct Hd as [->| ->].
    + by rewrite drop_all, firstn_all.
    + simpl. by rewrite app_nil_r.
  - unfold relink, ring.
    rewrite (list_lookup_middle (Some <$> l) [] None (length l))
      by (by rewrite length_fmap).
    assert (∀ (k : list (option A)) n, n = length k → delete n (k ++ [None]) = k)
      as Hdel by (intros k n ->; rewrite delete_middle; apply app_nil_r).
    rewrite Hdel by (by rewrite length_fmap).
    rewrite decide_False by lia.
    unfold of_ring.
    assert (length (take pos (Some <$> l)) = pos) as Hlen
      by (rewrite length_take, length_fmap; lia).
    rewrite find_if_app; [|apply Forall_take, Forall_not_sentinel|done].
    rewrite Hlen.
    rewrite take_app_length' by done.
    rewrite cons_middle, (assoc_L (++)).
    rewrite drop_app_length' by (rewrite length_app; simpl; lia).
    by rewrite <-fmap_drop, <-fmap_take, <-fmap_app, omap_id_Some.
Qed.

(** What [l.splice(l.end(), l, i)] does: the element at [i] goes to the
    back. *)
Lemma splice_to_end {A} (l : list A) (i : nat) x :
  l !! i = Some x → splice (end_ l) i l = delete i l ++ [x].
Proof.
  intros Hi. pose proof (lookup_lt_Some _ _ _ Hi) as Hlt.
  unfold splice, end_, next.
  rewrite (decide_False (P := i = length l)) by lia.
  case_decide as Hd.
  - assert (length l = S i) as Hlast by lia.
    rewrite delete_take_drop, (drop_ge l (S i)) by lia.
    rewrite app_nil_r, <-(take_drop i l) at 1. f_equal.
    apply list_eq. intros [|j].
    + by rewrite lookup_drop, Nat.add_0_r.
    + rewrite lookup_drop. simpl. apply lookup_ge_None. lia.
  - unfold relink, ring.
    rewrite lookup_app_l by (rewrite length_fmap; lia).
    rewrite list_lookup_fmap, Hi. simpl.
    rewrite decide_True by lia.
    assert (delete i ((Some <$> l) ++ [None]) = (Some <$> delete i l) ++ [None])
      as ->.
    { rewrite !delete_take_drop, fmap_app, fmap_take, fmap_drop.
      rewrite take_app_le by (rewrite length_fmap; lia).
      rewrite drop_app_le by (rewrite length_fmap; lia).
      by rewrite (assoc_L (++)). }
    assert (length (Some <$> delete i l) = pred (length l)) as Hlen.
    { rewrite length_fmap, length_delete by eauto. lia. }
    rewrite take_app_length', drop_app_length' by done.
    unfold of_ring.
    rewrite (assoc_L (++) _ [Some x] [None]).
    rewrite find_if_app; [|by apply Forall_app; split;
      [apply Forall_not_sentinel|repeat constructor]|done].
    rewrite drop_ge by (rewrite !length_app; simpl; lia).
    rewrite take_app_length. simpl.
    rewrite <-(fmap_app Some _ [x]). apply omap_id_Some.
Qed.

(** The positional [splice] and the node operations give the same list,
    for every pair of positions of a list of four elements, [end()]
    included. *)
Example splice_agrees_with_nodes :
  Forall
    (λ p : nat * nat,
       StdList.splice p.1 p.2 [1; 2; 3; 4]%nat =
       StdListNodes.to_list 4
         (StdListNodes.splice (StdListNodes.node_at 4 p.1)
            (StdListNodes.node_at 4 p.2) (StdListNodes.of_length 4)))
    (list_prod (seq 0 5) (seq 0 5)).
Proof.
  apply Forall_forall. intros [pos i] Hin.
  repeat (apply elem_of_cons in Hin as [[= -> ->]|Hin]; [by vm_compute|]).
  by apply elem_of_nil in Hin.
Qed.

(** On the nodes: relinking [end()] before the second of three elements. *)
Example nodes_splice_end :
  StdListNodes.to_list 3
    (StdListNodes.splice 2 0 (StdListNodes.of_length 3)) = [2; 3; 1]%nat.
Proof. by vm_compute. Qed.

End StdListFacts.

(** ** What restartQuery does, case by case *)

Lemma restartQuery_no_match qid response s :
  no_match qid (outstanding_ s) → restartQuery qid response s = s.
Proof.
  intros Hno. unfold restartQuery.
  apply StdListFacts.find_if_none in Hno as Hend.
  apply StdListFacts.find_if_end in Hend. by rewrite Hend.
Qed.

Lemma restartQuery_sending qid response s l1 x l2 :
  outstanding_ s = l1 ++ x :: l2 →
  no_match qid l1 →
  QueryEvent.matchResponse qid x = true →
  keep_sending_ s = true →
  restartQuery qid response s =
    mkImpl (msg_mgr_ s) (qryctx_creator_ s)
      (MessageSocket_send
         (QueryEvent.start (qid_ s) (query_timeout_ s) x).2 <$> udp_socket_ s)
      (session_timer_ s) (server_address_ s) (server_port_ s)
      (test_duration_ s) (query_timeout_ s) true (window_ s)
      (qid_incr (qid_ s)) (response_ s)
      ((QueryEvent.start (qid_ s) (query_timeout_ s) x).1 :: l2 ++ l1)
      (size_incr (queries_sent_ s))
      (completed_after response (queries_completed_ s))
      (start_time_ s) (end_time_ s).
Proof.
  intros Hout Hl1 Hx Hkeep. unfold restartQuery.
  rewrite Hout, StdListFacts.find_if_app by done.
  rewrite list_lookup_middle by done.
  assert (∀ x', StdList.splice (length l1)
            (StdList.end_ (<[length l1:=x']> (l1 ++ x :: l2)))
            (<[length l1:=x']> (l1 ++ x :: l2)) = x' :: l2 ++ l1) as Hsplice.
  { intros x'. rewrite StdListFacts.splice_end
      by (rewrite length_insert, length_app; lia).
    rewrite insert_app_r_alt, Nat.sub_diag by done. simpl.
    by rewrite drop_app_length, take_app_length. }
  destruct response; simpl; rewrite Hkeep; simpl;
    unfold set_outstanding_; simpl; rewrite Hout, Hsplice, Hkeep; done.
Qed.

Lemma restartQuery_draining qid response s l1 x l2 :
  outstanding_ s = l1 ++ x :: l2 →
  no_match qid l1 →
  QueryEvent.matchResponse qid x = true →
  keep_sending_ s = false →
  restartQuery qid response s =
    mkImpl
      (if bool_decide (l1 ++ l2 = []) then MessageManager_stop (msg_mgr_ s)
       else msg_mgr_ s)
      (qryctx_creator_ s) (udp_socket_ s)
      (session_timer_ s) (server_address_ s) (server_port_ s)
      (test_duration_ s) (query_timeout_ s) false (window_ s)
      (qid_ s) (response_ s) (l1 ++ l2) (queries_sent_ s)
      (completed_after response (queries_completed_ s))
      (start_time_ s) (end_time_ s).
Proof.
  intros Hout Hl1 Hx Hkeep. unfold restartQuery, StdList.erase.
  rewrite Hout, StdListFacts.find_if_app by done.
  rewrite list_lookup_middle by done.
  destruct response; simpl; rewrite Hkeep; simpl;
    rewrite Hout, delete_middle; case_bool_decide; setters; by rewrite Hkeep.
Qed.

(** Every call of restartQuery falls under one of the three cases. *)
Lemma restartQuery_cases qid (s : DispatcherImpl) :
  no_match qid (outstanding_ s) ∨
  ∃ l1 x l2, outstanding_ s = l1 ++ x :: l2 ∧ no_match qid l1 ∧
             QueryEvent.matchResponse qid x = true.
Proof.
  destruct (outstanding_ s
              !! StdList.find_if (QueryEvent.matchResponse qid) (outstanding_ s))
    as [x|] eqn:Hlook.
  - right. apply StdListFacts.find_if_split in Hlook as (l1 & l2 & ? & ? & ?).
    by exists l1, x, l2.
  - left. by apply StdListFacts.find_if_end_Forall, StdListFacts.find_if_end.
Qed.

(** ** Unmatched identifiers *)

(** C5: a restart whose identifier no outstanding slot carries leaves the
    whole dispatcher as it was: both counters, the window with its order,
    and every slot with its identifier and timer. *)
Theorem restartQuery_unmatched_discarded qid response s :
  Forall (λ ev, QueryEvent.qid_ ev ≠ qid) (outstanding_ s) →
  restartQuery qid response s = s.
Proof.
  intros Hno. apply restartQuery_no_match.
  eapply Forall_impl; [exact Hno|]. intros ev Hev.
  unfold QueryEvent.matchResponse. by rewrite bool_decide_eq_false.
Qed.

Lemma restartQuery_unmatched_discarded_witness :
  restartQuery 7 (Some Message_clear) example_running = example_running.
Proof.
  apply (restartQuery_unmatched_discarded 7 (Some Message_clear) example_running).
  vm_compute. repeat constructor; discriminate.
Defined.

(** ** Accessors *)

(** C10: each accessor returns the member it names and leaves the
    dispatcher untouched, whatever state it is in. *)
Theorem accessors_read_only s :
  Dispatcher.getServerAddress s = Return (server_address_ s) s ∧
  Dispatcher.getServerPort s = Return (server_port_ s) s ∧
  Dispatcher.getTestDuration s = Return (test_duration_ s) s ∧
  Dispatcher.getQueriesSent s = Return (queries_sent_ s) s ∧
  Dispatcher.getQueriesCompleted s = Return (queries_completed_ s) s ∧
  Dispatcher.getStartTime s = Return (start_time_ s) s ∧
  Dispatcher.getEndTime s = Return (end_time_ s) s.
Proof. by repeat split. Qed.

(** ** What run sets up *)

Lemma create_pool_eq n s :
  create_pool n s =
    mkImpl
      (mkMgr (sockets_created (msg_mgr_ s))
         (n + timers_created (msg_mgr_ s)) (stop_calls (msg_mgr_ s)))
      (mkCreator (n + created (qryctx_creator_ s)))
      (udp_socket_ s) (session_timer_ s) (server_address_ s) (server_port_ s)
      (test_duration_ s) (query_timeout_ s) (keep_sending_ s) (window_ s)
      (qid_ s) (response_ s)
      (outstanding_ s ++ fresh_slots (created (qryctx_creator_ s)) n)
      (queries_sent_ s) (queries_completed_ s) (start_time_ s) (end_time_ s).
Proof.
  revert s. induction n as [|n IH]; intros s.
  - destruct s as [[] []]; simpl. by rewrite app_nil_r.
  - simpl. rewrite IH. setters. unfold fresh_slots. simpl.
    rewrite <-(assoc_L (++)). simpl.
    by rewrite !Nat.add_succ_r.
Qed.

Lemma dispatch_initial_eq l s :
  dispatch_initial l s =
    (started_slots (qid_ s) (query_timeout_ s) l,
     mkImpl (msg_mgr_ s) (qryctx_creator_ s)
       ((λ k, mkSocket (sock_protocol k) (sock_address k) (sock_port k)
                (rev (initial_queries (qid_ s) (query_timeout_ s) l)
                 ++ sock_sent k)) <$> udp_socket_ s)
       (session_timer_ s) (server_address_ s) (server_port_ s)
       (test_duration_ s) (query_timeout_ s) (keep_sending_ s) (window_ s)
       (Nat.iter (length l) qid_incr (qid_ s)) (response_ s) (outstanding_ s)
       (Nat.iter (length l) size_incr (queries_sent_ s))
       (queries_completed_ s) (start_time_ s) (end_time_ s)).
Proof.
  revert s. induction l as [|x l IH]; intros s.
  - simpl. destruct s as [? ? [[]|]]; done.
  - simpl. rewrite IH. setters. rewrite <-!Nat.iter_succ_r. simpl.
    do 2 f_equal. destruct (udp_socket_ s) as [k|]; simpl; [|done].
    unfold MessageSocket_send. simpl. by rewrite <-(assoc_L (++)).
Qed.

(** The whole of [run_setup], member by member. *)
Lemma run_setup_eq now s :
  let n := Z.to_nat (window_ s) in
  let pool := outstanding_ s ++ fresh_slots (created (qryctx_creator_ s)) n in
  run_setup now s =
    mkImpl
      (mkMgr (S (sockets_created (msg_mgr_ s)))
         (n + S (timers_created (msg_mgr_ s))) (stop_calls (msg_mgr_ s)))
      (mkCreator (n + created (qryctx_creator_ s)))
      (Some (mkSocket IPPROTO_UDP (server_address_ s) (server_port_ s)
               (rev (initial_queries (qid_ s) (query_timeout_ s) pool))))
      (Some (mkTimer [seconds (test_duration_ s)]))
      (server_address_ s) (server_port_ s)
      (test_duration_ s) (query_timeout_ s) (keep_sending_ s) (window_ s)
      (Nat.iter (length pool) qid_incr (qid_ s)) (response_ s)
      (started_slots (qid_ s) (query_timeout_ s) pool)
      (Nat.iter (length pool) size_incr (queries_sent_ s))
      (queries_completed_ s) (time_point now) (end_time_ s).
Proof.
  unfold run_setup, createMessageSocket, createMessageTimer.
  rewrite dispatch_initial_eq, create_pool_eq.
  cbn -[Z.to_nat Nat.iter]. by rewrite app_nil_r.
Qed.

Lemma iter_qid_incr n q :
  0 ≤ q < QID_MOD → Nat.iter n qid_incr q = (q + Z.of_nat n) mod QID_MOD.
Proof.
  intros Hq. induction n as [|n IH].
  - simpl. rewrite Z.add_0_r, Z.mod_small; done.
  - rewrite Nat.iter_succ, IH. unfold qid_incr.
    rewrite Zplus_mod_idemp_l. f_equal. lia.
Qed.

Lemma iter_size_incr n q t :
  q = t mod SIZE_MOD →
  Nat.iter n size_incr q = (t + Z.of_nat n) mod SIZE_MOD.
Proof.
  intros ->. induction n as [|n IH].
  - simpl. by rewrite Z.add_0_r.
  - rewrite Nat.iter_succ, IH. unfold size_incr.
    rewrite Zplus_mod_idemp_l. f_equal. lia.
Qed.

Lemma length_started_slots q t l : length (started_slots q t l) = length l.
Proof. revert q. induction l; intros q; simpl; [done|]. by rewrite IHl. Qed.

Lemma length_initial_queries q t l : length (initial_queries q t l) = length l.
Proof. revert q. induction l; intros q; simpl; [done|]. by rewrite IHl. Qed.

Lemma length_fresh_slots c n : length (fresh_slots c n) = n.
Proof. unfold fresh_slots. by rewrite length_fmap, length_seq. Qed.

Lemma started_slots_lookup q t l (i : nat) :
  started_slots q t l !! i =
    (λ x, (QueryEvent.start (Nat.iter i qid_incr q) t x).1) <$> l !! i.
Proof.
  revert q i. induction l as [|x l IH]; intros q [|i]; simpl; try done.
  rewrite IH. by rewrite Nat.iter_swap.
Qed.

Lemma initial_queries_lookup q t l (i : nat) :
  initial_queries q t l !! i =
    (λ x, (QueryEvent.start (Nat.iter i qid_incr q) t x).2) <$> l !! i.
Proof.
  revert q i. induction l as [|x l IH]; intros q [|i]; simpl; try done.
  rewrite IH. by rewrite Nat.iter_swap.
Qed.

Lemma fresh_slots_lookup c n (i : nat) :
  (i < n)%nat →
  fresh_slots c n !! i = Some (QueryEvent.mk (mkCtx (c + i) 0) 0 (mkTimer [])).
Proof.
  intros Hi. unfold fresh_slots.
  by rewrite list_lookup_fmap, lookup_seq_lt.
Qed.

(** ** Setters *)

Lemma started_run_setup now s : started (run_setup now s).
Proof. by rewrite run_setup_eq. Qed.

Lemma not_started_new d mgr cr : ¬ started (DispatcherImpl_new d mgr cr).
Proof. unfold started. simpl. discriminate. Qed.

Lemma setter_fails_iff_started {V} what assign (getter : M V) v s :
  getter (assign s) = Return v (assign s) →
  fails_iff_started
    (λ impl_,
       if negb (is_special (start_time_ impl_)) then
         Throw (DispatcherError what) impl_
       else Return tt (assign impl_))
    getter v (assign s) s.
Proof.
  intros Hget. unfold fails_iff_started, started.
  destruct (is_special (start_time_ s)); cbn [negb]; split_and!.
  - split; [|done]. by intros (? & ? & ?).
  - done.
  - done.
  - split; eauto.
  - intros ? ? [= <- <-]. eauto.
  - done.
Qed.

(** C3: each of setServerAddress, setServerPort and setTestDuration throws
    exactly when the run has started; the throw is a DispatcherError and
    leaves the dispatcher as it was.  Before the start the call returns and
    leaves the dispatcher with the new value in the one member, every other
    member as it was, and the accessor of the member returns the new value.
    run starts the run, a new dispatcher has not started. *)
Theorem setters_fail_iff_started s address port duration :
  fails_iff_started (Dispatcher.setServerAddress address)
    Dispatcher.getServerAddress address
    (mkImpl (msg_mgr_ s) (qryctx_creator_ s) (udp_socket_ s)
       (session_timer_ s) address (server_port_ s) (test_duration_ s)
       (query_timeout_ s) (keep_sending_ s) (window_ s) (qid_ s)
       (response_ s) (outstanding_ s) (queries_sent_ s)
       (queries_completed_ s) (start_time_ s) (end_time_ s)) s ∧
  fails_iff_started (Dispatcher.setServerPort port)
    Dispatcher.getServerPort port
    (mkImpl (msg_mgr_ s) (qryctx_creator_ s) (udp_socket_ s)
       (session_timer_ s) (server_address_ s) port (test_duration_ s)
       (query_timeout_ s) (keep_sending_ s) (window_ s) (qid_ s)
       (response_ s) (outstanding_ s) (queries_sent_ s)
       (queries_completed_ s) (start_time_ s) (end_time_ s)) s ∧
  fails_iff_started (Dispatcher.setTestDuration duration)
    Dispatcher.getTestDuration duration
    (mkImpl (msg_mgr_ s) (qryctx_creator_ s) (udp_socket_ s)
       (session_timer_ s) (server_address_ s) (server_port_ s) duration
       (query_timeout_ s) (keep_sending_ s) (window_ s) (qid_ s)
       (response_ s) (outstanding_ s) (queries_sent_ s)
       (queries_completed_ s) (start_time_ s) (end_time_ s)) s ∧
  (∀ now, started (run_setup now s)) ∧
  (∀ d mgr cr, ¬ started (DispatcherImpl_new d mgr cr)).
Proof.
  split_and!.
  - exact (setter_fails_iff_started _ (set_server_address_ address)
             Dispatcher.getServerAddress address s eq_refl).
  - exact (setter_fails_iff_started _ (set_server_port_ port)
             Dispatcher.getServerPort port s eq_refl).
  - exact (setter_fails_iff_started _ (set_test_duration_ duration)
             Dispatcher.getTestDuration duration s eq_refl).
  - intros. apply started_run_setup.
  - intros. apply not_started_new.
Qed.

(** Before run the address can be set; once run has set the dispatcher up
    the call throws and the address stays. *)
Example setServerAddress_before_run :
  Dispatcher.setServerAddress "192.0.2.1" example_new
  = Return tt (set_server_address_ "192.0.2.1" example_new).
Proof. by vm_compute. Qed.

Example setServerAddress_after_run :
  Dispatcher.setServerAddress "192.0.2.1" example_running
  = Throw (DispatcherError "server address cannot be reset after run()")
      example_running ∧
  server_address_ example_running = "::1"%string.
Proof. by vm_compute. Qed.

(** ** Draining *)

Lemma nothing_sent_refl s : keep_sending_ s = false → nothing_sent s s.
Proof. by intros ?; split_and!. Qed.

Lemma nothing_sent_trans s1 s2 s3 :
  nothing_sent s1 s2 → nothing_sent s2 s3 → nothing_sent s1 s3.
Proof.
  intros (? & ? & ? & ? & ?) (? & ? & ? & ? & ?).
  split_and!; try congruence. by etrans.
Qed.

Lemma restartQuery_nothing_sent qid response s :
  keep_sending_ s = false → nothing_sent s (restartQuery qid response s).
Proof.
  intros Hkeep.
  destruct (restartQuery_cases qid s) as [Hno|(l1 & x & l2 & Hout & Hl1 & Hx)].
  - rewrite restartQuery_no_match by done. by apply nothing_sent_refl.
  - rewrite (restartQuery_draining _ _ _ l1 x l2) by done.
    split_and!; simpl; try done.
    rewrite Hout. apply sublist_app; [done|]. by apply sublist_cons.
Qed.

Lemma deliver_nothing_sent ev s :
  keep_sending_ s = false → nothing_sent s (state_of (deliver ev s)).
Proof.
  intros Hkeep. destruct ev as [data|slot|]; simpl.
  - unfold responseCallback, mbind, M_bind, bind, modify, throw. simpl.
    destruct (parseHeader data) as [m|]; simpl.
    + eapply nothing_sent_trans;
        [|apply restartQuery_nothing_sent; by setters].
      by split_and!.
    + by split_and!.
  - destruct (list_find _ _) as [[? qev]|]; simpl.
    + by apply restartQuery_nothing_sent.
    + by apply nothing_sent_refl.
  - by split_and!.
Qed.

Lemma restart_all_nothing_sent calls s :
  keep_sending_ s = false → nothing_sent s (restart_all calls s).
Proof.
  revert s. induction calls as [|[qid response] calls IH]; intros s Hkeep.
  - by apply nothing_sent_refl.
  - simpl. pose proof (restartQuery_nothing_sent qid response s Hkeep) as Hs.
    eapply nothing_sent_trans; [exact Hs|]. apply IH, Hs.
Qed.

Lemma deliver_all_nothing_sent evs s :
  keep_sending_ s = false → nothing_sent s (deliver_all evs s).
Proof.
  revert s. induction evs as [|ev evs IH]; intros s Hkeep.
  - by apply nothing_sent_refl.
  - simpl. pose proof (deliver_nothing_sent ev s Hkeep) as Hs.
    eapply nothing_sent_trans; [exact Hs|]. apply IH, Hs.
Qed.

(** C4: after the session timer has fired, no sequence of restarts, for
    any identifiers and with or without a response, and no sequence of
    events changes the sent count, the send counter or the socket's record
    of what was sent; the window only loses slots, and the slots that stay
    are unchanged, so none of them is given a new identifier. *)
Theorem no_send_after_session_timer s calls evs :
  nothing_sent (sessionTimerCallback s)
    (restart_all calls (sessionTimerCallback s)) ∧
  nothing_sent (sessionTimerCallback s)
    (deliver_all evs (sessionTimerCallback s)).
Proof.
  split.
  - by apply restart_all_nothing_sent.
  - by apply deliver_all_nothing_sent.
Qed.

(** ** Restart while sending *)

Lemma no_match_qid qid l :
  Forall (λ ev, QueryEvent.qid_ ev ≠ qid) l → no_match qid l.
Proof.
  intros Hl. eapply Forall_impl; [exact Hl|]. intros ev Hev.
  unfold QueryEvent.matchResponse. by rewrite bool_decide_eq_false.
Qed.

Lemma matchResponse_qid qid x :
  QueryEvent.qid_ x = qid → QueryEvent.matchResponse qid x = true.
Proof. intros. unfold QueryEvent.matchResponse. by rewrite bool_decide_eq_true. Qed.

(** C8: while sending is on, the first slot that carries the identifier
    of the restart is started again under the current value of the send
    counter, and the send counter moves on by one modulo 2^16, from 65535
    to 0.  The window holds the same slots as before, the matched one in
    its restarted form. *)
Theorem restart_assigns_send_counter qid response s l1 x l2 :
  outstanding_ s = l1 ++ x :: l2 →
  Forall (λ ev, QueryEvent.qid_ ev ≠ qid) l1 →
  QueryEvent.qid_ x = qid →
  keep_sending_ s = true →
  ∃ x',
    x' = (QueryEvent.start (qid_ s) (query_timeout_ s) x).1 ∧
    QueryEvent.this x' = QueryEvent.this x ∧
    QueryEvent.qid_ x' = qid_ s ∧
    outstanding_ (restartQuery qid response s) ≡ₚ l1 ++ x' :: l2 ∧
    qid_ (restartQuery qid response s) = (qid_ s + 1) mod 2 ^ 16 ∧
    (qid_ s = 2 ^ 16 - 1 → qid_ (restartQuery qid response s) = 0).
Proof.
  intros Hout Hl1 Hx Hkeep.
  rewrite (restartQuery_sending qid response s l1 x l2)
    by auto using no_match_qid, matchResponse_qid.
  eexists. split; [reflexivity|]. simpl. split_and!; try done.
  - by rewrite (comm (++) l2 l1), Permutation_middle.
  - by intros ->.
Qed.

Lemma restart_assigns_send_counter_witness :
  ∃ x',
    x' = (QueryEvent.start 3 5 (QueryEvent.mk (mkCtx 1 1) 1 (mkTimer [5]))).1 ∧
    QueryEvent.this x' = 1%nat ∧
    QueryEvent.qid_ x' = 3 ∧
    outstanding_ (restartQuery 1 None example_running) ≡ₚ
      [QueryEvent.mk (mkCtx 0 1) 0 (mkTimer [5])] ++
      x' :: [QueryEvent.mk (mkCtx 2 1) 2 (mkTimer [5])] ∧
    qid_ (restartQuery 1 None example_running) = (3 + 1) mod 2 ^ 16 ∧
    (3 = 2 ^ 16 - 1 → qid_ (restartQuery 1 None example_running) = 0).
Proof.
  apply (restart_assigns_send_counter 1 None example_running
           [QueryEvent.mk (mkCtx 0 1) 0 (mkTimer [5])]
           (QueryEvent.mk (mkCtx 1 1) 1 (mkTimer [5]))
           [QueryEvent.mk (mkCtx 2 1) 2 (mkTimer [5])]).
  - reflexivity.
  - repeat constructor; discriminate.
  - reflexivity.
  - reflexivity.
Defined.

(** The wrap itself, on a dispatcher whose send counter stands at 65535. *)
Example send_counter_wraps :
  qid_ (restartQuery 1 None (set_qid_ 65535 example_running)) = 0.
Proof. reflexivity. Qed.

(** C1: with the window [slot 0; slot 1; slot 2] and sending on, a restart
    for the identifier of slot 1 leaves the window as [slot 1; slot 2;
    slot 0]: the splice is called with the slot as the position and end() as
    the element, so the list is turned to begin at the matched slot, which
    is then first and not last, and slot 0 has moved behind slot 2. *)
Theorem restart_turns_window_to_matched_slot :
  QueryEvent.this <$> outstanding_ example_running = [0; 1; 2]%nat ∧
  QueryEvent.this <$>
    outstanding_ (restartQuery 1 (Some Message_clear) example_running)
    = [1; 2; 0]%nat ∧
  QueryEvent.this <$>
    outstanding_ (restartQuery 0 (Some Message_clear) example_running)
    = [0; 1; 2]%nat.
Proof. by vm_compute. Qed.

(** In general the matched slot comes out first, followed by the slots
    that stood behind it and then by those that stood before it. *)
Lemma restart_matched_slot_first qid response s l1 x l2 :
  outstanding_ s = l1 ++ x :: l2 →
  no_match qid l1 →
  QueryEvent.matchResponse qid x = true →
  keep_sending_ s = true →
  outstanding_ (restartQuery qid response s) =
    (QueryEvent.start (qid_ s) (query_timeout_ s) x).1 :: l2 ++ l1.
Proof.
  intros. by rewrite (restartQuery_sending qid response s l1 x l2).
Qed.

(** ** Malformed payloads *)

Lemma parseHeader_short data :
  (length data < HEADERLEN)%nat → parseHeader data = None.
Proof.
  unfold HEADERLEN. intros Hlen.
  do 12 (destruct data as [|? data]; [done|]). simpl in Hlen. lia.
Qed.

Lemma MessageManager_run_throw ev evs e s s' :
  stopped (msg_mgr_ s) = false →
  deliver ev s = Throw e s' →
  MessageManager_run (ev :: evs) s = Throw e s'.
Proof. intros Hs Hd. simpl. by rewrite Hs, Hd. Qed.

(** C2: a datagram shorter than a DNS header makes responseCallback throw
    MessageTooShort.  Counters, window and timers are as before (only the
    response placeholder has been cleared), but the exception is not caught:
    it leaves the event loop and then run, which ends without an end time. *)
Theorem short_payload_throws data s :
  (length data < HEADERLEN)%nat →
  responseCallback data s = Throw MessageTooShort (set_response_ Message_clear s) ∧
  (∀ evs, stopped (msg_mgr_ s) = false →
     MessageManager_run (SocketEvent data :: evs) s
     = Throw MessageTooShort (set_response_ Message_clear s)) ∧
  (∀ start finish evs,
     udp_socket_ s = None → stopped (msg_mgr_ s) = false →
     Dispatcher.run start finish (SocketEvent data :: evs) s
     = Throw MessageTooShort (set_response_ Message_clear (run_setup start s))).
Proof.
  intros Hlen.
  assert (∀ s, responseCallback data s
               = Throw MessageTooShort (set_response_ Message_clear s)) as Hcb.
  { intros s0. unfold responseCallback, mbind, M_bind, bind, modify, throw.
    by rewrite parseHeader_short. }
  split_and!; [done| |].
  - intros evs Hs. apply MessageManager_run_throw; [done|apply Hcb].
  - intros start finish evs Hsock Hs.
    unfold Dispatcher.run, DispatcherImpl_run, mbind, M_bind, bind, assert,
      modify.
    rewrite Hsock. simpl.
    assert (stopped (msg_mgr_ (run_setup start s)) = false) as ->
      by (by rewrite run_setup_eq).
    by rewrite Hcb.
Qed.

Lemma short_payload_throws_witness :
  responseCallback ["000"; "001"; "002"]%byte example_new
  = Throw MessageTooShort (set_response_ Message_clear example_new) ∧
  (∀ evs, stopped (msg_mgr_ example_new) = false →
     MessageManager_run (SocketEvent ["000"; "001"; "002"]%byte :: evs)
       example_new
     = Throw MessageTooShort (set_response_ Message_clear example_new)) ∧
  (∀ start finish evs,
     udp_socket_ example_new = None →
     stopped (msg_mgr_ example_new) = false →
     Dispatcher.run start finish
       (SocketEvent ["000"; "001"; "002"]%byte :: evs) example_new
     = Throw MessageTooShort
         (set_response_ Message_clear (run_setup start example_new))).
Proof.
  apply (short_payload_throws ["000"; "001"; "002"]%byte example_new).
  vm_compute. lia.
Defined.

(** The same on a whole run: the second event is never delivered. *)
Example run_dies_on_short_payload :
  Dispatcher.run 1000 2000
    [SocketEvent ["000"; "001"; "002"]%byte; SessionTimerExpired] example_new
  = Throw MessageTooShort (set_response_ Message_clear example_running).
Proof. by vm_compute. Qed.

(** ** What an event can do *)

Lemma deliver_cases ev s :
  (∃ data, ev = SocketEvent data ∧ parseHeader data = None ∧
     deliver ev s = Throw MessageTooShort (set_response_ Message_clear s)) ∨
  (∃ data m, ev = SocketEvent data ∧ parseHeader data = Some m ∧
     deliver ev s =
       Return tt (restartQuery (msg_qid m) (Some m) (set_response_ m s))) ∨
  (∃ slot qev, ev = QueryTimerExpired slot ∧ qev ∈ outstanding_ s ∧
     QueryEvent.this qev = slot ∧
     deliver ev s = Return tt (restartQuery (QueryEvent.qid_ qev) None s)) ∨
  (∃ slot, ev = QueryTimerExpired slot ∧ deliver ev s = Return tt s) ∨
  (ev = SessionTimerExpired ∧ deliver ev s = Return tt (sessionTimerCallback s)).
Proof.
  destruct ev as [data|slot|].
  - destruct (parseHeader data) as [m|] eqn:Hparse.
    + right; left. exists data, m. split_and!; [done|done|].
      cbn [deliver]. unfold responseCallback, mbind, M_bind, bind, modify, throw.
      by rewrite Hparse.
    + left. exists data. split_and!; [done|done|].
      cbn [deliver]. unfold responseCallback, mbind, M_bind, bind, modify, throw.
      by rewrite Hparse.
  - cbn [deliver].
    destruct (list_find _ _) as [[i qev]|] eqn:Hfind.
    + right; right; left. exists slot, qev.
      apply list_find_Some in Hfind as (Hi & Hthis & _).
      split_and!; [done|by eapply list_elem_of_lookup_2|done|done].
    + right; right; right; left. by exists slot.
  - right; right; right; right. done.
Qed.

(** A property kept by the three things a callback does is kept by every
    delivery, and so by every sequence of deliveries. *)
Lemma deliver_preserves (I : DispatcherImpl → Prop) :
  (∀ m s, I s → I (set_response_ m s)) →
  (∀ qid response s, I s → I (restartQuery qid response s)) →
  (∀ s, I s → I (sessionTimerCallback s)) →
  ∀ ev s, I s → I (state_of (deliver ev s)).
Proof.
  intros Hresp Hrestart Hsession ev s Hs.
  destruct (deliver_cases ev s)
    as [(? & _ & _ & ->)|[(? & ? & _ & _ & ->)|[(? & ? & _ & _ & _ & ->)
       |[(? & _ & ->)|(_ & ->)]]]]; cbn [state_of]; auto.
Qed.

Lemma deliver_all_preserves (I : DispatcherImpl → Prop) :
  (∀ ev s, I s → I (state_of (deliver ev s))) →
  ∀ evs s, I s → I (deliver_all evs s).
Proof.
  intros Hstep evs. induction evs as [|ev evs IH]; intros s Hs; [done|].
  cbn [deliver_all foldl]. apply IH, Hstep, Hs.
Qed.

Lemma same_configuration_restartQuery qid response s :
  same_configuration s (restartQuery qid response s).
Proof.
  destruct (restartQuery_cases qid s) as [Hno|(l1 & x & l2 & Hout & Hl1 & Hx)].
  - rewrite restartQuery_no_match by done. by repeat split.
  - destruct (keep_sending_ s) eqn:Hkeep.
    + rewrite (restartQuery_sending qid response s l1 x l2) by done.
      by repeat split.
    + rewrite (restartQuery_draining qid response s l1 x l2) by done.
      by repeat split.
Qed.

Lemma same_configuration_deliver s ev s0 :
  same_configuration s s0 → same_configuration s (state_of (deliver ev s0)).
Proof.
  apply (deliver_preserves (same_configuration s)).
  - intros m s1 Hs1. exact Hs1.
  - intros qid response s1 Hs1.
    destruct (same_configuration_restartQuery qid response s1)
      as (? & ? & ? & ? & ? & ? & ? & ? & ?).
    destruct Hs1 as (? & ? & ? & ? & ? & ? & ? & ? & ?).
    repeat split; congruence.
  - intros s1 Hs1. exact Hs1.
Qed.

Lemma same_configuration_deliver_all evs s :
  same_configuration s (deliver_all evs s).
Proof.
  apply (deliver_all_preserves (same_configuration s)); [|by repeat split].
  intros ev s0. apply same_configuration_deliver.
Qed.

(** Where the loop leaves the dispatcher: where the events it got to
    deliver have brought it. *)
Lemma MessageManager_run_state evs s :
  ∃ evs', evs' `prefix_of` evs ∧
          state_of (MessageManager_run evs s) = deliver_all evs' s.
Proof.
  revert s. induction evs as [|ev evs IH]; intros s; cbn [MessageManager_run].
  - exists []. split; [done|]. by destruct (stopped _).
  - destruct (stopped (msg_mgr_ s)).
    { exists []. split; [apply prefix_nil|done]. }
    destruct (deliver ev s) as [[] s1|e s1|s1|s1] eqn:Hd.
    + destruct (IH s1) as (evs' & Hpre & Hst).
      exists (ev :: evs'). split; [by apply prefix_cons|].
      cbn [deliver_all foldl]. by rewrite Hd.
    + exists [ev]. split; [apply prefix_cons, prefix_nil|].
      cbn [deliver_all foldl]. by rewrite Hd.
    + exists [ev]. split; [apply prefix_cons, prefix_nil|].
      cbn [deliver_all foldl]. by rewrite Hd.
    + exists [ev]. split; [apply prefix_cons, prefix_nil|].
      cbn [deliver_all foldl]. by rewrite Hd.
Qed.

Lemma restartQuery_stop qid response s :
  stop_calls (msg_mgr_ (restartQuery qid response s)) = stop_calls (msg_mgr_ s) ∨
  stop_calls (msg_mgr_ (restartQuery qid response s))
    = S (stop_calls (msg_mgr_ s)) ∧
  outstanding_ (restartQuery qid response s) = [] ∧
  keep_sending_ (restartQuery qid response s) = false.
Proof.
  destruct (restartQuery_cases qid s) as [Hno|(l1 & x & l2 & Hout & Hl1 & Hx)].
  { left. by rewrite restartQuery_no_match. }
  destruct (keep_sending_ s) eqn:Hkeep.
  - left. by rewrite (restartQuery_sending qid response s l1 x l2).
  - rewrite (restartQuery_draining qid response s l1 x l2) by done.
    cbn [msg_mgr_ outstanding_ keep_sending_].
    case_bool_decide; [right|left]; done.
Qed.

Lemma deliver_stop ev s :
  stop_calls (msg_mgr_ (state_of (deliver ev s))) = stop_calls (msg_mgr_ s) ∨
  stop_calls (msg_mgr_ (state_of (deliver ev s))) = S (stop_calls (msg_mgr_ s)) ∧
  outstanding_ (state_of (deliver ev s)) = [] ∧
  keep_sending_ (state_of (deliver ev s)) = false.
Proof.
  destruct (deliver_cases ev s)
    as [(? & _ & _ & ->)|[(? & m & _ & _ & ->)|[(? & qev & _ & _ & _ & ->)
       |[(? & _ & ->)|(_ & ->)]]]]; cbn [state_of]; auto.
  - apply (restartQuery_stop (msg_qid m) (Some m) (set_response_ m s)).
  - apply restartQuery_stop.
Qed.

(** ** Restart while draining *)

Lemma MessageManager_run_stopped evs s s' :
  MessageManager_run evs s = Return tt s' → stopped (msg_mgr_ s') = true.
Proof.
  revert s. induction evs as [|ev evs IH]; intros s; simpl.
  - destruct (stopped (msg_mgr_ s)) eqn:Hs; [|done]. by intros [= <-].
  - destruct (stopped (msg_mgr_ s)) eqn:Hs; [by intros [= <-]|].
    destruct (deliver ev s); try done. apply IH.
Qed.

Lemma run_returns start finish evs s s' :
  Dispatcher.run start finish evs s = Return tt s' →
  end_time_ s' = time_point finish ∧ stopped (msg_mgr_ s') = true.
Proof.
  unfold Dispatcher.run, DispatcherImpl_run, mbind, M_bind, bind, assert,
    modify.
  case_bool_decide; [|done].
  destruct (MessageManager_run evs (run_setup start s)) as [[] s1| | |] eqn:Hrun;
    try done.
  intros [= <-]. split; [done|]. simpl.
  by apply MessageManager_run_stopped in Hrun.
Qed.

(** A callback either returns or throws: it neither trips the assertion
    of run nor blocks. *)
Lemma deliver_not_blocked ev s s' : deliver ev s ≠ Blocked s'.
Proof.
  destruct (deliver_cases ev s)
    as [(? & _ & _ & ->)|[(? & ? & _ & _ & ->)|[(? & ? & _ & _ & _ & ->)
       |[(? & _ & ->)|(_ & ->)]]]]; done.
Qed.

(** A loop that is blocked after the events of [before] was not stopped,
    and goes on from there with the events that come next. *)
Lemma MessageManager_run_blocked before more s s_loop :
  MessageManager_run before s = Blocked s_loop →
  stopped (msg_mgr_ s_loop) = false ∧
  MessageManager_run (before ++ more) s = MessageManager_run more s_loop.
Proof.
  revert s. induction before as [|ev before IH]; intros s.
  - cbn [MessageManager_run app].
    destruct (stopped (msg_mgr_ s)) eqn:Hs; [done|]. by intros [= <-].
  - cbn [MessageManager_run app]. destruct (stopped (msg_mgr_ s)); [done|].
    destruct (deliver ev s) as [[] s1|e s1|s1|s1] eqn:Hd; try done.
    + apply IH.
    + by destruct (deliver_not_blocked ev s s1).
Qed.

(** C6: while draining, a restart that finds its slot erases it from the
    window; stop is called on the message manager then and only then when
    the window has become empty.  Nothing delivered later brings a slot back
    into the window, so the erased slot stays out.  And when it is the loop
    of run that delivers the event of this restart: if the window has
    become empty, run returns, whatever events would follow, with the
    window empty, stop called once and the end time the time of the return;
    if a slot is left, run is still in its loop, stop has not been called
    and the end time is not recorded yet. *)
Theorem draining_restart_erases qid response s l1 x l2 :
  outstanding_ s = l1 ++ x :: l2 →
  Forall (λ ev, QueryEvent.qid_ ev ≠ qid) l1 →
  QueryEvent.qid_ x = qid →
  keep_sending_ s = false →
  outstanding_ (restartQuery qid response s) = l1 ++ l2 ∧
  stop_calls (msg_mgr_ (restartQuery qid response s)) =
    (if decide (l1 ++ l2 = []) then S (stop_calls (msg_mgr_ s))
     else stop_calls (msg_mgr_ s)) ∧
  (∀ evs,
     outstanding_ (deliver_all evs (restartQuery qid response s))
       `sublist_of` l1 ++ l2) ∧
  (NoDup (outstanding_ s) →
   ∀ evs, x ∉ outstanding_ (deliver_all evs (restartQuery qid response s))) ∧
  (∀ start finish s0 before s_loop ev,
     udp_socket_ s0 = None →
     MessageManager_run before (run_setup start s0) = Blocked s_loop →
     deliver ev s_loop = Return tt (restartQuery qid response s) →
     if decide (l1 ++ l2 = []) then
       ∀ rest, ∃ s',
         Dispatcher.run start finish (before ++ ev :: rest) s0 = Return tt s' ∧
         outstanding_ s' = [] ∧
         stop_calls (msg_mgr_ s') = 1%nat ∧
         end_time_ s' = time_point finish
     else
       ∃ s',
         Dispatcher.run start finish (before ++ [ev]) s0 = Blocked s' ∧
         outstanding_ s' = l1 ++ l2 ∧
         stop_calls (msg_mgr_ s') = 0%nat ∧
         end_time_ s' = end_time_ s0).
Proof.
  intros Hout Hl1 Hx Hkeep.
  assert (restartQuery qid response s = _) as Heq
    by (apply (restartQuery_draining qid response s l1 x l2);
        auto using no_match_qid, matchResponse_qid).
  assert (outstanding_ (restartQuery qid response s) = l1 ++ l2) as Hout'
    by (by rewrite Heq).
  assert (stop_calls (msg_mgr_ (restartQuery qid response s)) =
            (if decide (l1 ++ l2 = []) then S (stop_calls (msg_mgr_ s))
             else stop_calls (msg_mgr_ s))) as Hstop'.
  { rewrite Heq. simpl. case_bool_decide; by case_decide. }
  assert (∀ evs,
    outstanding_ (deliver_all evs (restartQuery qid response s))
      `sublist_of` l1 ++ l2) as Hsub.
  { intros evs.
    destruct (deliver_all_nothing_sent evs (restartQuery qid response s))
      as (_ & _ & _ & _ & Hsub); [by rewrite Heq|].
    by rewrite Hout' in Hsub. }
  split_and!.
  - done.
  - done.
  - done.
  - intros Hnodup evs Hin. rewrite Hout in Hnodup.
    apply NoDup_app in Hnodup as (_ & Hl1x & [Hxl2 _]%NoDup_cons).
    eapply elem_of_sublist in Hin; [|apply Hsub].
    apply elem_of_app in Hin as [Hin|Hin]; [|done].
    apply (Hl1x x Hin). by left.
  - intros start finish s0 before s_loop ev Hsock Hloop Hev.
    assert (stop_calls (msg_mgr_ s_loop) = 0%nat) as Hzero.
    { destruct (MessageManager_run_blocked before [] _ _ Hloop) as [Hns _].
      apply bool_decide_eq_false in Hns.
      destruct (stop_calls (msg_mgr_ s_loop)); [done|].
      by destruct Hns. }
    pose proof (deliver_stop ev s_loop) as Hstop.
    rewrite Hev in Hstop. cbn [state_of] in Hstop.
    rewrite Hzero, Hout' in Hstop.
    unfold Dispatcher.run, DispatcherImpl_run, mbind, M_bind, bind, assert,
      modify.
    rewrite bool_decide_eq_true_2 by done.
    case_decide as Hempty.
    + intros rest.
      assert (stop_calls (msg_mgr_ (restartQuery qid response s)) = 1%nat)
        as Hone by (destruct Hstop as [Hstop|[Hstop _]]; congruence).
      destruct (MessageManager_run_blocked before (ev :: rest) _ _ Hloop)
        as [Hns ->].
      cbn [MessageManager_run]. rewrite Hns, Hev.
      assert (MessageManager_run rest (restartQuery qid response s)
              = Return tt (restartQuery qid response s)) as ->.
      { destruct rest; cbn [MessageManager_run]; unfold stopped;
          by rewrite Hone. }
      eexists. split; [reflexivity|].
      cbn [set_end_time_ outstanding_ msg_mgr_ end_time_].
      by rewrite Hout', Hempty, Hone.
    + assert (stop_calls (msg_mgr_ (restartQuery qid response s)) = 0%nat)
        as Hnone by (destruct Hstop as [Hstop|(_ & Hnil & _)]; congruence).
      destruct (MessageManager_run_blocked before [ev] _ _ Hloop)
        as [Hns ->].
      cbn [MessageManager_run]. rewrite Hns, Hev.
      unfold stopped. rewrite Hnone. cbn [bool_decide decide_rel].
      rewrite bool_decide_eq_false_2 by (intros Hne; by apply Hne).
      eexists. split; [reflexivity|]. split_and!; [done|done|].
      destruct (MessageManager_run_state before (run_setup start s0))
        as (evs' & _ & Hst).
      rewrite Hloop in Hst. cbn [state_of] in Hst.
      destruct (same_configuration_deliver_all evs' (run_setup start s0))
        as (_ & _ & _ & _ & _ & _ & Hend & _).
      rewrite <-Hst in Hend.
      destruct (same_configuration_deliver s_loop ev s_loop)
        as (_ & _ & _ & _ & _ & _ & Hend' & _); [by repeat split|].
      rewrite Hev in Hend'. cbn [state_of] in Hend'.
      rewrite Hend', Hend. by rewrite run_setup_eq.
Qed.

Lemma draining_restart_erases_witness :
  (outstanding_
     (restartQuery 2 (Some (mkMessage 2 0 [0; 0; 0; 0] true))
        (set_response_ (mkMessage 2 0 [0; 0; 0; 0] true) example_last_slot))
   = [] ++ []) ∧
  (stop_calls
     (msg_mgr_
        (restartQuery 2 (Some (mkMessage 2 0 [0; 0; 0; 0] true))
           (set_response_ (mkMessage 2 0 [0; 0; 0; 0] true)
              example_last_slot)))
   = 1%nat) ∧
  (∃ s',
     Dispatcher.run 1000 2000
       ([SessionTimerExpired; QueryTimerExpired 1; QueryTimerExpired 0]
        ++ SocketEvent example_reply :: [QueryTimerExpired 2])
       example_new = Return tt s' ∧
     outstanding_ s' = [] ∧
     stop_calls (msg_mgr_ s') = 1%nat ∧
     end_time_ s' = time_point 2000).
Proof.
  destruct (draining_restart_erases 2
              (Some (mkMessage 2 0 [0; 0; 0; 0] true))
              (set_response_ (mkMessage 2 0 [0; 0; 0; 0] true)
                 example_last_slot)
              [] (QueryEvent.mk (mkCtx 2 1) 2 (mkTimer [5])) [])
    as (Herased & Hstop & _ & _ & Hrun).
  - by vm_compute.
  - constructor.
  - reflexivity.
  - by vm_compute.
  - split; [exact Herased|]. split; [exact Hstop|].
    apply (Hrun 1000 2000 example_new
             [SessionTimerExpired; QueryTimerExpired 1; QueryTimerExpired 0]
             example_last_slot (SocketEvent example_reply)).
    + reflexivity.
    + by vm_compute.
    + by vm_compute.
Defined.

(** A whole run that drains: the session timer fires, the three slots time
    out one by one, the last timeout stops the loop and run returns. *)
Example run_drains_and_returns :
  ∃ s,
    Dispatcher.run 1000 2000
      [SessionTimerExpired; QueryTimerExpired 1; QueryTimerExpired 0;
       QueryTimerExpired 2; QueryTimerExpired 0] example_new = Return tt s ∧
    outstanding_ s = [] ∧
    stop_calls (msg_mgr_ s) = 1%nat ∧
    queries_sent_ s = 3 ∧
    start_time_ s = time_point 1000 ∧
    end_time_ s = time_point 2000.
Proof. eexists. by vm_compute. Qed.

(** While a slot is left the loop goes on. *)
Example run_waits_for_last_slot :
  ∃ s,
    Dispatcher.run 1000 2000
      [SessionTimerExpired; QueryTimerExpired 1; QueryTimerExpired 0]
      example_new = Blocked s ∧
    QueryEvent.this <$> outstanding_ s = [2%nat] ∧
    stop_calls (msg_mgr_ s) = 0%nat ∧
    end_time_ s = not_a_date_time.
Proof. eexists. by vm_compute. Qed.

(** ** The initial queries *)

Lemma pristine_new d mgr cr :
  0 ≤ DEFAULT_WINDOW d < SIZE_MOD → pristine (DispatcherImpl_new d mgr cr).
Proof. intros [? ?]. by split_and!. Qed.

Lemma run_setup_outstanding now s :
  pristine s →
  outstanding_ (run_setup now s) =
    started_slots 0 (query_timeout_ s)
      (fresh_slots (created (qryctx_creator_ s)) (Z.to_nat (window_ s))).
Proof.
  intros (_ & Hout & Hqid & _). rewrite run_setup_eq. cbn [outstanding_].
  by rewrite Hout, Hqid.
Qed.

Lemma run_setup_socket now s :
  pristine s →
  udp_socket_ (run_setup now s) =
    Some (mkSocket IPPROTO_UDP (server_address_ s) (server_port_ s)
            (rev (initial_queries 0 (query_timeout_ s)
                    (fresh_slots (created (qryctx_creator_ s))
                       (Z.to_nat (window_ s)))))).
Proof.
  intros (_ & Hout & Hqid & _). rewrite run_setup_eq. cbn [udp_socket_].
  by rewrite Hout, Hqid.
Qed.

Lemma run_setup_qid now s :
  pristine s → qid_ (run_setup now s) = window_ s mod QID_MOD.
Proof.
  intros (_ & Hout & Hqid & _ & _ & Hw). rewrite run_setup_eq. cbn [qid_].
  rewrite Hout, Hqid. cbn [app]. rewrite length_fresh_slots.
  rewrite iter_qid_incr by done. f_equal. lia.
Qed.

Lemma run_setup_sent now s :
  pristine s → queries_sent_ (run_setup now s) = queries_sent_ s + window_ s.
Proof.
  intros (_ & Hout & _ & Hsent & _ & Hw). rewrite run_setup_eq.
  cbn [queries_sent_]. rewrite Hout. cbn [app]. rewrite length_fresh_slots.
  rewrite (iter_size_incr _ _ 0) by by rewrite Hsent.
  rewrite Hsent, Z.mod_small; lia.
Qed.

Lemma iter_qid_incr_0 (i : nat) :
  Nat.iter i qid_incr 0 = Z.of_nat i mod QID_MOD.
Proof. by rewrite iter_qid_incr. Qed.

Lemma run_setup_slot now s (i : nat) :
  pristine s → (i < Z.to_nat (window_ s))%nat →
  outstanding_ (run_setup now s) !! i =
    Some (QueryEvent.mk (mkCtx (created (qryctx_creator_ s) + i) 1)
            (Z.of_nat i mod QID_MOD) (mkTimer [query_timeout_ s])).
Proof.
  intros Hs Hi. rewrite run_setup_outstanding by done.
  rewrite started_slots_lookup, fresh_slots_lookup by done.
  simpl. by rewrite iter_qid_incr_0.
Qed.

Lemma run_setup_query now s (i : nat) :
  pristine s → (i < Z.to_nat (window_ s))%nat →
  ∃ k, udp_socket_ (run_setup now s) = Some k ∧
       length (sock_sent k) = Z.to_nat (window_ s) ∧
       rev (sock_sent k) !! i =
         Some (mkWire (created (qryctx_creator_ s) + i) 0
                 (Z.of_nat i mod QID_MOD)).
Proof.
  intros Hs Hi. rewrite run_setup_socket by done.
  eexists. split; [done|]. simpl.
  rewrite length_rev, length_initial_queries, length_fresh_slots.
  split; [done|].
  rewrite rev_involutive, initial_queries_lookup, fresh_slots_lookup by done.
  simpl. by rewrite iter_qid_incr_0.
Qed.

(** C7, as the code has it: on a dispatcher not yet run, with window size
    N, run creates N slots and, before the event loop, sends one request per
    slot in window order, the i-th slot (from 0) under the identifier
    i mod 2^16; the sent count grows by N and the send counter is left at
    N mod 2^16.  For N below 2^16 the identifiers are 0, 1, ..., N-1 and the
    send counter is N. *)
Theorem run_sends_one_query_per_slot now s :
  pristine s →
  length (outstanding_ (run_setup now s)) = Z.to_nat (window_ s) ∧
  (∀ i : nat, (i < Z.to_nat (window_ s))%nat →
     outstanding_ (run_setup now s) !! i =
       Some (QueryEvent.mk (mkCtx (created (qryctx_creator_ s) + i) 1)
               (Z.of_nat i mod 2 ^ 16) (mkTimer [query_timeout_ s])) ∧
     ∃ k, udp_socket_ (run_setup now s) = Some k ∧
          length (sock_sent k) = Z.to_nat (window_ s) ∧
          rev (sock_sent k) !! i =
            Some (mkWire (created (qryctx_creator_ s) + i) 0
                    (Z.of_nat i mod 2 ^ 16))) ∧
  queries_sent_ (run_setup now s) = queries_sent_ s + window_ s ∧
  qid_ (run_setup now s) = window_ s mod 2 ^ 16 ∧
  (window_ s < 2 ^ 16 →
   qid_ (run_setup now s) = window_ s ∧
   ∀ (i : nat) x, outstanding_ (run_setup now s) !! i = Some x →
                  QueryEvent.qid_ x = Z.of_nat i).
Proof.
  intros Hs.
  assert (length (outstanding_ (run_setup now s)) = Z.to_nat (window_ s))
    as Hlen.
  { rewrite run_setup_outstanding by done.
    by rewrite length_started_slots, length_fresh_slots. }
  split_and!.
  - done.
  - intros i Hi. split.
    + by apply run_setup_slot.
    + by apply run_setup_query.
  - by apply run_setup_sent.
  - by apply run_setup_qid.
  - intros Hw. destruct Hs as (H1 & H2 & H3 & H4 & H5 & H6).
    assert (pristine s) as Hs by done. split.
    + rewrite run_setup_qid by done. apply Z.mod_small.
      unfold QID_MOD, QID_BITS. lia.
    + intros i x Hx. pose proof (lookup_lt_Some _ _ _ Hx) as Hi.
      rewrite Hlen in Hi. rewrite run_setup_slot in Hx by done.
      injection Hx as <-. simpl. apply Z.mod_small.
      unfold QID_MOD, QID_BITS. lia.
Qed.

Lemma run_sends_one_query_per_slot_witness :
  length (outstanding_ (run_setup 1000 example_new)) = Z.to_nat 3 ∧
  (∀ i : nat, (i < Z.to_nat 3)%nat →
     outstanding_ (run_setup 1000 example_new) !! i =
       Some (QueryEvent.mk (mkCtx (0 + i) 1)
               (Z.of_nat i mod 2 ^ 16) (mkTimer [5])) ∧
     ∃ k, udp_socket_ (run_setup 1000 example_new) = Some k ∧
          length (sock_sent k) = Z.to_nat 3 ∧
          rev (sock_sent k) !! i =
            Some (mkWire (0 + i) 0 (Z.of_nat i mod 2 ^ 16))) ∧
  queries_sent_ (run_setup 1000 example_new) = 0 + 3 ∧
  qid_ (run_setup 1000 example_new) = 3 mod 2 ^ 16 ∧
  (3 < 2 ^ 16 →
   qid_ (run_setup 1000 example_new) = 3 ∧
   ∀ (i : nat) x, outstanding_ (run_setup 1000 example_new) !! i = Some x →
                  QueryEvent.qid_ x = Z.of_nat i).
Proof.
  apply (run_sends_one_query_per_slot 1000 example_new).
  vm_compute. by split_and!.
Defined.

(** With a window of 65536 the send counter has wrapped to 0 when the
    initial queries are out: it is not the window size. *)
Lemma run_send_counter_not_window_size :
  pristine example_wide ∧
  window_ example_wide = 65536 ∧
  qid_ (run_setup 1000 example_wide) = 0 ∧
  qid_ (run_setup 1000 example_wide) ≠ window_ example_wide.
Proof.
  assert (pristine example_wide) as Hs by (by vm_compute; split_and!).
  split_and!; [done|done| |];
    rewrite (run_setup_qid 1000 example_wide Hs); by vm_compute.
Qed.

(** ** The counters *)

Lemma size_incr_mod t : size_incr (t mod SIZE_MOD) = (t + 1) mod SIZE_MOD.
Proof. unfold size_incr. by rewrite Zplus_mod_idemp_l. Qed.

Lemma counters_inv_config s s' :
  counters_inv s →
  udp_socket_ s' = udp_socket_ s → outstanding_ s' = outstanding_ s →
  queries_sent_ s' = queries_sent_ s →
  queries_completed_ s' = queries_completed_ s →
  counters_inv s'.
Proof.
  intros (c & ? & ? & ? & ? & ?) Hk Ho Hs Hc. exists c.
  unfold sent_total in *. rewrite Hk, Ho, Hs, Hc. by split_and!.
Qed.

Lemma counters_inv_setter what assign s :
  (∀ s, udp_socket_ (assign s) = udp_socket_ s ∧
        outstanding_ (assign s) = outstanding_ s ∧
        queries_sent_ (assign s) = queries_sent_ s ∧
        queries_completed_ (assign s) = queries_completed_ s) →
  counters_inv s →
  counters_inv
    (state_of (if negb (is_special (start_time_ s))
               then Throw (A := unit) (DispatcherError what) s
               else Return tt (assign s))).
Proof.
  intros Hassign Hs. destruct (negb _); simpl; [done|].
  destruct (Hassign s) as (? & ? & ? & ?). by eapply counters_inv_config.
Qed.

Lemma counters_inv_run_setup now s :
  udp_socket_ s = None → counters_inv s → counters_inv (run_setup now s).
Proof.
  intros Hk (c & Hc & Hcompl & Hsent & Hle & Hnone).
  unfold sent_total in *. rewrite Hk in *. rewrite Hnone in * by done.
  simpl in Hle. assert (c = 0) as -> by lia.
  exists 0. rewrite run_setup_eq. unfold sent_total. simpl.
  rewrite Hnone by done. simpl.
  rewrite length_rev, length_initial_queries, length_started_slots,
    length_fresh_slots.
  split_and!; [done|done| |lia|done].
  by rewrite (iter_size_incr _ _ 0).
Qed.

Lemma counters_inv_restartQuery qid response s :
  counters_inv s → counters_inv (restartQuery qid response s).
Proof.
  intros (c & Hc & Hcompl & Hsent & Hle & Hnone).
  destruct (restartQuery_cases qid s) as [Hno|(l1 & x & l2 & Hout & Hl1 & Hx)].
  { rewrite restartQuery_no_match by done. by exists c. }
  assert (∃ c', c ≤ c' ≤ c + 1 ∧
            completed_after response (queries_completed_ s) = c' mod SIZE_MOD)
    as (c' & Hc' & Hcompl').
  { destruct response; simpl.
    - exists (c + 1). split; [lia|]. by rewrite Hcompl, size_incr_mod.
    - exists c. split; [lia|done]. }
  unfold sent_total in *. rewrite Hout in Hle, Hnone.
  rewrite length_app in Hle. simpl in Hle.
  destruct (udp_socket_ s) as [k|] eqn:Hk;
    [|by pose proof (Hnone eq_refl); destruct l1].
  destruct (keep_sending_ s) eqn:Hkeep.
  - rewrite (restartQuery_sending qid response s l1 x l2) by done.
    exists c'. unfold sent_total. cbn -[Z.of_nat]. rewrite Hk. cbn -[Z.of_nat].
    split_and!; [lia|done| | |done].
    + rewrite Hsent, size_incr_mod. f_equal. lia.
    + rewrite length_app. lia.
  - rewrite (restartQuery_draining qid response s l1 x l2) by done.
    exists c'. unfold sent_total. cbn -[Z.of_nat]. rewrite Hk.
    split_and!; [lia|done|done| |done].
    rewrite length_app. lia.
Qed.

Lemma counters_inv_deliver ev s :
  counters_inv s → counters_inv (state_of (deliver ev s)).
Proof.
  intros Hs. destruct ev as [data|slot|]; simpl.
  - unfold responseCallback, mbind, M_bind, bind, modify, throw. simpl.
    destruct (parseHeader data) as [m|]; simpl.
    + apply counters_inv_restartQuery. by eapply counters_inv_config.
    + by eapply counters_inv_config.
  - destruct (list_find _ _) as [[? qev]|]; simpl; [|done].
    by apply counters_inv_restartQuery.
  - by eapply counters_inv_config.
Qed.

Lemma reachable_counters_inv s : reachable s → counters_inv s.
Proof.
  induction 1 as [d mgr cr|a s _ IH|p s _ IH|t s _ IH|now s _ IH Hk
                 |ev s _ IH|finish s _ IH].
  - exists 0. by split_and!.
  - by apply counters_inv_setter.
  - by apply counters_inv_setter.
  - by apply counters_inv_setter.
  - by apply counters_inv_run_setup.
  - by apply counters_inv_deliver.
  - by eapply counters_inv_config.
Qed.

(** C9, as the code has it: in every state reachable by construction,
    configuration, the set-up of run and any sequence of responses, slot
    timeouts and session timeouts, the completed count is at most the sent
    count as long as fewer than 2^64 requests have been sent, that is, as
    long as the sent count has not wrapped round. *)
Theorem completed_le_sent s :
  reachable s →
  sent_total s < 2 ^ 64 →
  queries_completed_ s ≤ queries_sent_ s.
Proof.
  intros (c & Hc & -> & -> & Hle & _)%reachable_counters_inv Hlt.
  change (2 ^ 64) with SIZE_MOD in Hlt.
  rewrite !Z.mod_small; lia.
Qed.

Lemma completed_le_sent_witness :
  queries_completed_ (state_of (deliver (SocketEvent (replicate 12 "000"%byte))
                                  example_running))
  ≤ queries_sent_ (state_of (deliver (SocketEvent (replicate 12 "000"%byte))
                               example_running)).
Proof.
  apply (completed_le_sent
           (state_of (deliver (SocketEvent (replicate 12 "000"%byte))
                        example_running))).
  - apply reach_deliver, reach_run_setup; [apply reach_new|reflexivity].
  - by vm_compute.
Defined.

(** *** How the sent count wraps

    With a window of one slot, each timeout of the slot sends one more
    request. *)

(** One timeout of the only slot: it is restarted, one more request is
    sent, nothing completes. *)
Lemma single_slot_timeout s x :
  keep_sending_ s = true →
  outstanding_ s = [x] →
  QueryEvent.this x = 0%nat →
  keep_sending_ (state_of (deliver (QueryTimerExpired 0) s)) = true ∧
  (∃ x', outstanding_ (state_of (deliver (QueryTimerExpired 0) s)) = [x'] ∧
         QueryEvent.this x' = 0%nat) ∧
  queries_completed_ (state_of (deliver (QueryTimerExpired 0) s))
    = queries_completed_ s ∧
  queries_sent_ (state_of (deliver (QueryTimerExpired 0) s))
    = size_incr (queries_sent_ s).
Proof.
  intros Hkeep Hout Hx.
  assert (state_of (deliver (QueryTimerExpired 0) s)
          = restartQuery (QueryEvent.qid_ x) None s) as ->.
  { cbn [deliver]. rewrite Hout. cbn [list_find]. by rewrite decide_True. }
  rewrite (restartQuery_sending _ None s [] x []);
    [|done|constructor|by apply matchResponse_qid|done].
  cbn. split_and!; [done|by eexists|done|done].
Qed.

Lemma timeouts_counters k :
  reachable (timeouts k) ∧
  keep_sending_ (timeouts k) = true ∧
  (∃ x, outstanding_ (timeouts k) = [x] ∧ QueryEvent.this x = 0%nat) ∧
  queries_completed_ (timeouts k) = 1 ∧
  queries_sent_ (timeouts k) = (2 + Z.of_nat k) mod SIZE_MOD.
Proof.
  induction k as [|k (Hreach & Hkeep & (x & Hout & Hx) & Hcompl & Hsent)].
  - split; [apply reach_deliver, reach_run_setup; [apply reach_new|done]|].
    split; [by vm_compute|]. split; [eexists; split; by vm_compute|].
    split; by vm_compute.
  - unfold timeouts in *. rewrite Nat.iter_succ.
    destruct (single_slot_timeout _ x Hkeep Hout Hx)
      as (Hkeep' & Hout' & Hcompl' & Hsent').
    split_and!; [by apply reach_deliver|done|done|congruence|].
    rewrite Hsent', Hsent, size_incr_mod. f_equal. clear. lia.
Qed.

Lemma timeouts_counters_Z (k : Z) :
  0 ≤ k →
  reachable (timeouts (Z.to_nat k)) ∧
  queries_completed_ (timeouts (Z.to_nat k)) = 1 ∧
  queries_sent_ (timeouts (Z.to_nat k)) = (2 + k) mod SIZE_MOD.
Proof.
  intros Hk.
  destruct (timeouts_counters (Z.to_nat k)) as (Hreach & _ & _ & Hcompl & Hsent).
  rewrite Z2Nat.id in Hsent by done. done.
Qed.

(** After one response and 2^64 - 2 timeouts the sent count is back at 0
    while one query has completed: the completed count is above the sent
    count in a reachable state. *)
Lemma completed_above_sent_after_wrap :
  ¬ (∀ s, reachable s → queries_completed_ s ≤ queries_sent_ s).
Proof.
  intros Hall.
  destruct (timeouts_counters_Z (SIZE_MOD - 2)) as (Hreach & Hcompl & Hsent);
    [by vm_compute|].
  apply Hall in Hreach. rewrite Hcompl, Hsent in Hreach.
  clear Hall Hcompl Hsent. revert Hreach. by vm_compute.
Qed.

(** * Further properties *)

(** ** What no callback touches *)

(** X1: no event, and so no sequence of events, changes the server
    address, the port, the test duration, the query timeout, the window
    size, the start time, the end time, the session timer or the context
    creator. *)
Theorem events_keep_configuration evs s :
  same_configuration s (deliver_all evs s).
Proof.
  apply (deliver_all_preserves (same_configuration s)).
  - intros ev s0 Hs0. by apply same_configuration_deliver.
  - by repeat split.
Qed.

Lemma started_deliver_all evs s : started s → started (deliver_all evs s).
Proof.
  unfold started.
  destruct (same_configuration_deliver_all evs s)
    as (_ & _ & _ & _ & _ & -> & _).
  done.
Qed.

(** X2: once run has set the dispatcher up, the configuration is frozen
    for good: after any sequence of events each setter still throws
    DispatcherError and leaves the dispatcher as it is, and the accessors
    still return what was configured when run began. *)
Theorem configuration_frozen_after_run now evs s address port duration :
  ∃ s', s' = deliver_all evs (run_setup now s) ∧
    (∃ what, Dispatcher.setServerAddress address s'
             = Throw (DispatcherError what) s') ∧
    (∃ what, Dispatcher.setServerPort port s'
             = Throw (DispatcherError what) s') ∧
    (∃ what, Dispatcher.setTestDuration duration s'
             = Throw (DispatcherError what) s') ∧
    Dispatcher.getServerAddress s' = Return (server_address_ s) s' ∧
    Dispatcher.getServerPort s' = Return (server_port_ s) s' ∧
    Dispatcher.getTestDuration s' = Return (test_duration_ s) s' ∧
    Dispatcher.getStartTime s' = Return (time_point now) s'.
Proof.
  eexists. split; [reflexivity|].
  pose proof (started_deliver_all evs _ (started_run_setup now s)) as Hstarted.
  destruct (same_configuration_deliver_all evs (run_setup now s))
    as (Ha & Hp & Hd & _ & _ & Ht & _).
  unfold started in Hstarted.
  unfold Dispatcher.setServerAddress, Dispatcher.setServerPort,
    Dispatcher.setTestDuration, Dispatcher.getServerAddress,
    Dispatcher.getServerPort, Dispatcher.getTestDuration,
    Dispatcher.getStartTime, get.
  rewrite Hstarted, Ha, Hp, Hd, Ht. cbn [negb].
  rewrite run_setup_eq. cbn [server_address_ server_port_ test_duration_ start_time_].
  split_and!; eauto.
Qed.

(** ** The window between run and the end *)

Lemma this_start q t x :
  QueryEvent.this (QueryEvent.start q t x).1 = QueryEvent.this x.
Proof. done. Qed.

Lemma this_started_slots q t l :
  QueryEvent.this <$> started_slots q t l = QueryEvent.this <$> l.
Proof. revert q. induction l as [|x l IH]; intros q; csimpl; [done|]. by rewrite IH. Qed.

Lemma this_fresh_slots c n : QueryEvent.this <$> fresh_slots c n = seq c n.
Proof.
  unfold fresh_slots. rewrite <-list_fmap_compose.
  revert c. induction n as [|n IH]; intros c; csimpl; [done|]. by rewrite IH.
Qed.

Lemma restartQuery_window qid response s :
  keep_sending_ (restartQuery qid response s) = keep_sending_ s ∧
  QueryEvent.this <$> outstanding_ (restartQuery qid response s)
    ⊆+ QueryEvent.this <$> outstanding_ s ∧
  (keep_sending_ s = true →
   QueryEvent.this <$> outstanding_ (restartQuery qid response s)
     ≡ₚ QueryEvent.this <$> outstanding_ s).
Proof.
  destruct (restartQuery_cases qid s) as [Hno|(l1 & x & l2 & Hout & Hl1 & Hx)].
  { rewrite restartQuery_no_match by done. done. }
  destruct (keep_sending_ s) eqn:Hkeep.
  - rewrite (restartQuery_sending qid response s l1 x l2) by done.
    cbn [keep_sending_ outstanding_]. rewrite Hout.
    assert (QueryEvent.this <$>
              (QueryEvent.start (qid_ s) (query_timeout_ s) x).1 :: l2 ++ l1
            ≡ₚ QueryEvent.this <$> l1 ++ x :: l2) as Hperm.
    { rewrite fmap_cons, this_start, !fmap_app, fmap_cons.
      by rewrite (comm (++) (QueryEvent.this <$> l2)), Permutation_middle. }
    split_and!; [done|by apply Permutation_submseteq|done].
  - rewrite (restartQuery_draining qid response s l1 x l2) by done.
    cbn [keep_sending_ outstanding_]. rewrite Hout.
    split_and!; [done| |done].
    apply sublist_submseteq, fmap_sublist, sublist_app; [done|].
    by apply sublist_cons.
Qed.

Lemma window_within_deliver ids ev s :
  window_within ids s → window_within ids (state_of (deliver ev s)).
Proof.
  apply (deliver_preserves (window_within ids)).
  - intros m s0 Hs0. exact Hs0.
  - intros qid response s0 [Hsub Hperm].
    destruct (restartQuery_window qid response s0) as (Hkeep & Hsub' & Hperm').
    split.
    + by etrans.
    + rewrite Hkeep. intros Htrue. rewrite Hperm' by done. by apply Hperm.
  - intros s0 [Hsub _]. split; [done|]. discriminate.
Qed.

(** X3: from the set-up of run on, whatever events are delivered, the
    window never holds more than the configured number of slots, and while
    sending is still on it holds exactly that many: the very slots run
    created, each with the context it was given, in some order. *)
Theorem window_stays_full_while_sending now evs s :
  pristine s →
  (length (outstanding_ (deliver_all evs (run_setup now s)))
     ≤ Z.to_nat (window_ s))%nat ∧
  (keep_sending_ (deliver_all evs (run_setup now s)) = true →
   length (outstanding_ (deliver_all evs (run_setup now s)))
     = Z.to_nat (window_ s) ∧
   QueryEvent.this <$> outstanding_ (deliver_all evs (run_setup now s))
     ≡ₚ seq (created (qryctx_creator_ s)) (Z.to_nat (window_ s))).
Proof.
  intros Hs.
  assert (window_within (seq (created (qryctx_creator_ s)) (Z.to_nat (window_ s)))
            (deliver_all evs (run_setup now s))) as [Hsub Hperm].
  { apply deliver_all_preserves; [apply window_within_deliver|].
    unfold window_within.
    rewrite run_setup_outstanding, this_started_slots, this_fresh_slots by done.
    done. }
  split.
  - apply submseteq_length in Hsub.
    by rewrite length_fmap, length_seq in Hsub.
  - intros Hkeep. specialize (Hperm Hkeep). split; [|done].
    apply Permutation_length in Hperm.
    by rewrite length_fmap, length_seq in Hperm.
Qed.

Lemma window_stays_full_while_sending_witness :
  (length (outstanding_
             (deliver_all [QueryTimerExpired 1; SocketEvent (replicate 12 "000"%byte)]
                (run_setup 1000 example_new)))
     ≤ Z.to_nat (window_ example_new))%nat ∧
  (keep_sending_
     (deliver_all [QueryTimerExpired 1; SocketEvent (replicate 12 "000"%byte)]
        (run_setup 1000 example_new)) = true →
   length (outstanding_
             (deliver_all [QueryTimerExpired 1; SocketEvent (replicate 12 "000"%byte)]
                (run_setup 1000 example_new)))
     = Z.to_nat (window_ example_new) ∧
   QueryEvent.this <$>
     outstanding_
       (deliver_all [QueryTimerExpired 1; SocketEvent (replicate 12 "000"%byte)]
          (run_setup 1000 example_new))
     ≡ₚ seq (created (qryctx_creator_ example_new))
          (Z.to_nat (window_ example_new))).
Proof.
  apply (window_stays_full_while_sending 1000
           [QueryTimerExpired 1; SocketEvent (replicate 12 "000"%byte)]
           example_new).
  vm_compute. by split_and!.
Defined.

(** ** Responses *)

Lemma octet_range b : 0 ≤ octet b < 256.
Proof. destruct b; by vm_compute. Qed.

Lemma parseHeader_take data : parseHeader (take HEADERLEN data) = parseHeader data.
Proof.
  unfold HEADERLEN.
  do 12 (destruct data as [|? data]; [done|]). done.
Qed.

Lemma parseHeader_long data :
  (HEADERLEN ≤ length data)%nat →
  ∃ m, parseHeader data = Some m ∧
       ∀ hi lo rest, data = hi :: lo :: rest → msg_qid m = readUint16 hi lo.
Proof.
  unfold HEADERLEN. intros Hlen.
  do 12 (destruct data as [|? data]; [simpl in Hlen; lia|]).
  eexists. split; [done|]. by intros hi lo rest [= <- <- _].
Qed.

(** X4: a datagram of at least the twelve octets of a DNS header is never
    refused: responseCallback returns, and what it does is one restart, with
    a response, for the identifier made of the first two octets in network
    order, which lies between 0 and 65535.  Nothing behind the header is
    looked at. *)
Theorem response_restarts_by_header_id data s :
  (HEADERLEN ≤ length data)%nat →
  ∃ m,
    responseCallback data s
      = Return tt (restartQuery (msg_qid m) (Some m) (set_response_ m s)) ∧
    (∀ hi lo rest, data = hi :: lo :: rest →
       msg_qid m = octet hi * 256 + octet lo) ∧
    0 ≤ msg_qid m < 2 ^ 16 ∧
    responseCallback (take HEADERLEN data) s = responseCallback data s.
Proof.
  intros Hlen. destruct (parseHeader_long data Hlen) as (m & Hparse & Hqid).
  assert (0 ≤ msg_qid m < 2 ^ 16) as Hrange.
  { destruct data as [|hi [|lo rest]];
      [unfold HEADERLEN in Hlen; simpl in Hlen; lia..|].
    rewrite (Hqid hi lo rest eq_refl). unfold readUint16.
    pose proof (octet_range hi). pose proof (octet_range lo).
    change (2 ^ 16) with 65536. lia. }
  exists m. split; [|split; [exact Hqid|split; [exact Hrange|]]].
  - unfold responseCallback, mbind, M_bind, bind, modify, throw.
    by rewrite Hparse.
  - unfold responseCallback. by rewrite parseHeader_take.
Qed.

Lemma response_restarts_by_header_id_witness :
  ∃ m,
    responseCallback ("001" :: "002" :: replicate 11 "000")%byte example_running
      = Return tt (restartQuery (msg_qid m) (Some m)
                     (set_response_ m example_running)) ∧
    (∀ hi lo rest,
       ("001" :: "002" :: replicate 11 "000")%byte = hi :: lo :: rest →
       msg_qid m = octet hi * 256 + octet lo) ∧
    0 ≤ msg_qid m < 2 ^ 16 ∧
    responseCallback
      (take HEADERLEN ("001" :: "002" :: replicate 11 "000")%byte)
      example_running
    = responseCallback ("001" :: "002" :: replicate 11 "000")%byte
        example_running.
Proof.
  apply (response_restarts_by_header_id
           ("001" :: "002" :: replicate 11 "000")%byte example_running).
  vm_compute. lia.
Defined.

Lemma completed_restartQuery qid response s :
  queries_completed_ (restartQuery qid response s) = queries_completed_ s ∨
  (∃ m, response = Some m) ∧ ¬ no_match qid (outstanding_ s) ∧
  queries_completed_ (restartQuery qid response s)
    = size_incr (queries_completed_ s).
Proof.
  destruct (restartQuery_cases qid s) as [Hno|(l1 & x & l2 & Hout & Hl1 & Hx)].
  { left. by rewrite restartQuery_no_match. }
  assert (¬ no_match qid (outstanding_ s)) as Hsome.
  { rewrite Hout. intros [_ Hx']%Forall_app. apply Forall_cons in Hx' as [Hx' _].
    congruence. }
  destruct (keep_sending_ s) eqn:Hkeep.
  - rewrite (restartQuery_sending qid response s l1 x l2) by done.
    destruct response as [m|]; [right|by left]. eauto.
  - rewrite (restartQuery_draining qid response s l1 x l2) by done.
    destruct response as [m|]; [right|by left]. eauto.
Qed.

(** X5: only a response that finds its slot counts as a completion.  A
    restart without a response, and so every timeout of a slot, leaves the
    completed count as it is; so does a response whose identifier no
    outstanding slot carries; a response whose identifier some outstanding
    slot carries adds one (modulo 2^64), whether sending is on or not. *)
Theorem completions_are_matched_responses s :
  (∀ qid, queries_completed_ (restartQuery qid None s) = queries_completed_ s) ∧
  (∀ slot, queries_completed_ (state_of (deliver (QueryTimerExpired slot) s))
           = queries_completed_ s) ∧
  (∀ qid m, Forall (λ ev, QueryEvent.qid_ ev ≠ qid) (outstanding_ s) →
     queries_completed_ (restartQuery qid (Some m) s) = queries_completed_ s) ∧
  (∀ qid m, Exists (λ ev, QueryEvent.qid_ ev = qid) (outstanding_ s) →
     queries_completed_ (restartQuery qid (Some m) s)
     = (queries_completed_ s + 1) mod 2 ^ 64).
Proof.
  assert (∀ qid, queries_completed_ (restartQuery qid None s)
                 = queries_completed_ s) as Hnone.
  { intros qid.
    by destruct (completed_restartQuery qid None s) as [?|[[m [=]] _]]. }
  split_and!.
  - exact Hnone.
  - intros slot.
    destruct (deliver_cases (QueryTimerExpired slot) s)
      as [(? & [=] & _)|[(? & ? & [=] & _)|[(? & ? & _ & _ & _ & ->)
         |[(? & _ & ->)|([=] & _)]]]]; cbn [state_of]; [apply Hnone|done].
  - intros qid m Hno. by rewrite restartQuery_no_match by by apply no_match_qid.
  - intros qid m Hex.
    destruct (restartQuery_cases qid s) as [Hno|(l1 & x & l2 & Hout & Hl1 & Hx)].
    { apply Exists_exists in Hex as (ev & Hin & Hev).
      pose proof (proj1 (Forall_forall _ _) Hno ev Hin) as Hfalse.
      unfold QueryEvent.matchResponse in Hfalse.
      by rewrite bool_decide_eq_false in Hfalse. }
    destruct (keep_sending_ s) eqn:Hkeep.
    + by rewrite (restartQuery_sending qid (Some m) s l1 x l2).
    + by rewrite (restartQuery_draining qid (Some m) s l1 x l2).
Qed.



(** ** Whole runs *)

(** What run leaves behind, when its assertion holds: the set-up and then
    the events the loop got to, with the end time when it returned. *)
Lemma run_state start finish evs s :
  udp_socket_ s = None →
  ∃ evs', evs' `prefix_of` evs ∧
    (state_of (Dispatcher.run start finish evs s)
       = deliver_all evs' (run_setup start s) ∨
     state_of (Dispatcher.run start finish evs s)
       = set_end_time_ (time_point finish)
           (deliver_all evs' (run_setup start s))).
Proof.
  intros Hsock.
  destruct (MessageManager_run_state evs (run_setup start s))
    as (evs' & Hpre & Hst).
  exists evs'. split; [done|].
  unfold Dispatcher.run, DispatcherImpl_run, mbind, M_bind, bind, assert,
    modify.
  rewrite Hsock. cbn [bool_decide decide_rel].
  rewrite bool_decide_eq_true_2 by done.
  destruct (MessageManager_run evs (run_setup start s)) as [[] s1|e s1|s1|s1];
    cbn [state_of] in *; subst; auto.
Qed.

Lemma MessageManager_run_drained evs s s' :
  stop_calls (msg_mgr_ s) = 0%nat →
  MessageManager_run evs s = Return tt s' →
  stop_calls (msg_mgr_ s') = 1%nat ∧ outstanding_ s' = [] ∧
  keep_sending_ s' = false.
Proof.
  revert s. induction evs as [|ev evs IH]; intros s Hstop;
    cbn [MessageManager_run]; unfold stopped; rewrite Hstop;
    rewrite bool_decide_eq_false_2 by (intros Hne; by apply Hne); [done|].
  destruct (deliver ev s) as [[] s1|e s1|s1|s1] eqn:Hd; try done.
  intros Hrun.
  destruct (deliver_stop ev s) as [Hsame|(Hone & Hout & Hkeep)];
    rewrite Hd in *; cbn [state_of] in *.
  - apply (IH s1); [congruence|done].
  - rewrite Hstop in Hone. destruct evs as [|ev' evs];
      cbn [MessageManager_run] in Hrun; unfold stopped in Hrun;
      rewrite Hone in Hrun; cbn in Hrun; by injection Hrun as <-.
Qed.

Lemma run_returned_stopped start finish evs s s' :
  stop_calls (msg_mgr_ s) = 0%nat →
  Dispatcher.run start finish evs s = Return tt s' →
  outstanding_ s' = [] ∧ keep_sending_ s' = false ∧
  stop_calls (msg_mgr_ s') = 1%nat.
Proof.
  intros Hstop.
  unfold Dispatcher.run, DispatcherImpl_run, mbind, M_bind, bind, assert,
    modify.
  case_bool_decide as Hsock; [|done].
  destruct (MessageManager_run evs (run_setup start s)) as [[] s1| | |] eqn:Hrun;
    try done.
  intros [= <-].
  apply MessageManager_run_drained in Hrun as (? & ? & ?);
    [done|by rewrite run_setup_eq].
Qed.

(** X7: run returns only from the drained state.  On a message manager
    that has not been stopped before, whenever run returns the window is
    empty, sending is off, stop has been called exactly once, the start
    time is the time the set-up took and the end time the time of the
    return. *)
Theorem run_returns_drained start finish evs s s' :
  stop_calls (msg_mgr_ s) = 0%nat →
  Dispatcher.run start finish evs s = Return tt s' →
  outstanding_ s' = [] ∧ keep_sending_ s' = false ∧
  stop_calls (msg_mgr_ s') = 1%nat ∧
  start_time_ s' = time_point start ∧ end_time_ s' = time_point finish.
Proof.
  intros Hstop.
  unfold Dispatcher.run, DispatcherImpl_run, mbind, M_bind, bind, assert,
    modify.
  case_bool_decide as Hsock; [|done].
  destruct (MessageManager_run evs (run_setup start s)) as [[] s1| | |] eqn:Hrun;
    try done.
  intros [= <-].
  apply MessageManager_run_drained in Hrun as Hdrained;
    [|by rewrite run_setup_eq].
  destruct Hdrained as (? & ? & ?).
  destruct (MessageManager_run_state evs (run_setup start s))
    as (evs' & _ & Hst).
  rewrite Hrun in Hst. cbn [state_of] in Hst.
  destruct (same_configuration_deliver_all evs' (run_setup start s))
    as (_ & _ & _ & _ & _ & Htime & _).
  rewrite <-Hst in Htime. rewrite run_setup_eq in Htime.
  split_and!; done.
Qed.

Lemma run_returns_drained_witness :
  outstanding_
    (state_of (Dispatcher.run 1000 2000
                 [SessionTimerExpired; QueryTimerExpired 1;
                  QueryTimerExpired 0; QueryTimerExpired 2] example_new)) = [] ∧
  keep_sending_
    (state_of (Dispatcher.run 1000 2000
                 [SessionTimerExpired; QueryTimerExpired 1;
                  QueryTimerExpired 0; QueryTimerExpired 2] example_new))
  = false ∧
  stop_calls
    (msg_mgr_
       (state_of (Dispatcher.run 1000 2000
                    [SessionTimerExpired; QueryTimerExpired 1;
                     QueryTimerExpired 0; QueryTimerExpired 2] example_new)))
  = 1%nat ∧
  start_time_
    (state_of (Dispatcher.run 1000 2000
                 [SessionTimerExpired; QueryTimerExpired 1;
                  QueryTimerExpired 0; QueryTimerExpired 2] example_new))
  = time_point 1000 ∧
  end_time_
    (state_of (Dispatcher.run 1000 2000
                 [SessionTimerExpired; QueryTimerExpired 1;
                  QueryTimerExpired 0; QueryTimerExpired 2] example_new))
  = time_point 2000.
Proof.
  apply (run_returns_drained 1000 2000
           [SessionTimerExpired; QueryTimerExpired 1;
            QueryTimerExpired 0; QueryTimerExpired 2] example_new).
  - by vm_compute.
  - by vm_compute.
Defined.

(** X8: with a window of size 0 run never returns.  There is no slot whose
    end could stop the loop: whatever events arrive, run is still blocked
    in the loop when they are used up, or has been left by an exception. *)
Theorem run_with_empty_window_never_returns start finish evs s :
  pristine s →
  window_ s = 0 →
  stop_calls (msg_mgr_ s) = 0%nat →
  ¬ ∃ s', Dispatcher.run start finish evs s = Return tt s'.
Proof.
  intros Hs Hwin Hstop [s' Hrun].
  pose proof Hs as (Hsock & _).
  apply run_returned_stopped in Hrun as Hret; [|done].
  destruct Hret as (_ & _ & Hone).
  destruct (run_state start finish evs s Hsock) as (evs' & _ & Hst).
  rewrite Hrun in Hst. cbn [state_of] in Hst.
  assert (outstanding_ (deliver_all evs' (run_setup start s)) = [] ∧
          stop_calls (msg_mgr_ (deliver_all evs' (run_setup start s))) = 0%nat)
    as [_ Hzero].
  { apply (deliver_all_preserves
             (λ s0, outstanding_ s0 = [] ∧ stop_calls (msg_mgr_ s0) = 0%nat)).
    - intros ev.
      apply (deliver_preserves
               (λ s0, outstanding_ s0 = [] ∧ stop_calls (msg_mgr_ s0) = 0%nat)).
      + intros m s0 Hs0. exact Hs0.
      + intros qid response s0 [Hout Hst0].
        rewrite restartQuery_no_match; [done|].
        unfold no_match. rewrite Hout. constructor.
      + intros s0 Hs0. exact Hs0.
    - rewrite run_setup_outstanding by done. rewrite Hwin.
      split; [done|]. by rewrite run_setup_eq. }
  destruct Hst as [->| ->]; cbn [set_end_time_ msg_mgr_] in Hone; congruence.
Qed.

Lemma run_with_empty_window_never_returns_witness :
  ¬ ∃ s',
    Dispatcher.run 1000 2000 [SessionTimerExpired; QueryTimerExpired 0]
      (DispatcherImpl_new (mkDefaults 0 53 30 5) (mkMgr 0 0 0) (mkCreator 0))
    = Return tt s'.
Proof.
  apply (run_with_empty_window_never_returns 1000 2000
           [SessionTimerExpired; QueryTimerExpired 0]
           (DispatcherImpl_new (mkDefaults 0 53 30 5) (mkMgr 0 0 0)
              (mkCreator 0))).
  - vm_compute. by split_and!.
  - by vm_compute.
  - by vm_compute.
Defined.

Lemma socket_stays evs s :
  is_Some (udp_socket_ s) → is_Some (udp_socket_ (deliver_all evs s)).
Proof.
  apply (deliver_all_preserves (λ s0, is_Some (udp_socket_ s0))).
  intros ev. apply (deliver_preserves (λ s0, is_Some (udp_socket_ s0))).
  - intros m s0 Hs0. exact Hs0.
  - intros qid response s0 [k Hk].
    destruct (restartQuery_cases qid s0) as [Hno|(l1 & x & l2 & Hout & Hl1 & Hx)].
    { by rewrite restartQuery_no_match. }
    destruct (keep_sending_ s0) eqn:Hkeep.
    + rewrite (restartQuery_sending qid response s0 l1 x l2) by done.
      cbn [udp_socket_]. rewrite Hk. by eexists.
    + rewrite (restartQuery_draining qid response s0 l1 x l2) by done.
      cbn [udp_socket_]. by eexists.
  - intros s0 Hs0. exact Hs0.
Qed.

(** X9: run can be called once.  However the first call ended (returned,
    was left by an exception, or is still in the loop), the dispatcher it
    leaves has its socket, so a second call trips the assertion at its
    head and does nothing else. *)
Theorem second_run_trips_assertion start finish evs s start' finish' evs' :
  udp_socket_ s = None →
  Dispatcher.run start' finish' evs'
    (state_of (Dispatcher.run start finish evs s))
  = AssertFailed (state_of (Dispatcher.run start finish evs s)).
Proof.
  intros Hsock.
  assert (is_Some (udp_socket_ (state_of (Dispatcher.run start finish evs s))))
    as [k Hk].
  { destruct (run_state start finish evs s Hsock) as (evs0 & _ & [-> | ->]).
    - apply socket_stays. rewrite run_setup_eq. by eexists.
    - cbn [set_end_time_ udp_socket_].
      apply socket_stays. rewrite run_setup_eq. by eexists. }
  unfold Dispatcher.run at 1. unfold mbind, M_bind, bind, assert.
  by rewrite Hk.
Qed.

Lemma second_run_trips_assertion_witness :
  Dispatcher.run 3000 4000 [SessionTimerExpired]
    (state_of (Dispatcher.run 1000 2000 [QueryTimerExpired 0] example_new))
  = AssertFailed
      (state_of (Dispatcher.run 1000 2000 [QueryTimerExpired 0] example_new)).
Proof.
  apply (second_run_trips_assertion 1000 2000 [QueryTimerExpired 0] example_new
           3000 4000 [SessionTimerExpired]).
  by vm_compute.
Defined.

(** X10: what is configured before run is what run uses.  On a dispatcher
    that has not started, setting the address, the port and the duration
    succeeds, and the set-up of run then creates its UDP socket for that
    address and port and starts the session timer, once, with that
    duration. *)
Theorem run_uses_configuration now address port duration s :
  ¬ started s →
  ∃ s1 sent,
    (Dispatcher.setServerAddress address ;;
     Dispatcher.setServerPort port ;;
     Dispatcher.setTestDuration duration) s = Return tt s1 ∧
    udp_socket_ (run_setup now s1)
      = Some (mkSocket IPPROTO_UDP address port sent) ∧
    session_timer_ (run_setup now s1) = Some (mkTimer [seconds duration]).
Proof.
  intros Hnot. unfold started in Hnot.
  apply not_false_is_true in Hnot.
  exists (set_test_duration_ duration
            (set_server_port_ port (set_server_address_ address s))).
  eexists. split_and!.
  - unfold mbind, M_bind, bind, Dispatcher.setServerAddress,
      Dispatcher.setServerPort, Dispatcher.setTestDuration.
    rewrite Hnot. cbn [negb].
    change (start_time_ (set_server_address_ address s)) with (start_time_ s).
    rewrite Hnot. cbn [negb].
    change (start_time_ (set_server_port_ port (set_server_address_ address s)))
      with (start_time_ s).
    by rewrite Hnot.
  - rewrite run_setup_eq. reflexivity.
  - rewrite run_setup_eq. reflexivity.
Qed.

Lemma run_uses_configuration_witness :
  ∃ s1 sent,
    (Dispatcher.setServerAddress "192.0.2.1" ;;
     Dispatcher.setServerPort 5300 ;;
     Dispatcher.setTestDuration 7) example_new = Return tt s1 ∧
    udp_socket_ (run_setup 1000 s1)
      = Some (mkSocket IPPROTO_UDP "192.0.2.1" 5300 sent) ∧
    session_timer_ (run_setup 1000 s1) = Some (mkTimer [seconds 7]).
Proof.
  apply (run_uses_configuration 1000 "192.0.2.1" 5300 7 example_new).
  by vm_compute.
Defined.

(** ** What goes out through the socket *)

Lemma sent_total_log s : sent_total s = Z.of_nat (length (sent_log s)).
Proof. unfold sent_total, sent_log. by destruct (udp_socket_ s). Qed.

Lemma sent_log_restartQuery qid response s :
  sent_log (restartQuery qid response s) = sent_log s ∨
  keep_sending_ s = true ∧
  ∃ x, x ∈ outstanding_ s ∧
       sent_log (restartQuery qid response s)
         = (QueryEvent.start (qid_ s) (query_timeout_ s) x).2 :: sent_log s.
Proof.
  destruct (restartQuery_cases qid s) as [Hno|(l1 & x & l2 & Hout & Hl1 & Hx)].
  { left. by rewrite restartQuery_no_match. }
  destruct (keep_sending_ s) eqn:Hkeep.
  - rewrite (restartQuery_sending qid response s l1 x l2) by done.
    unfold sent_log. cbn [udp_socket_].
    destruct (udp_socket_ s) as [k|]; [right|by left].
    split; [done|]. exists x. split; [|done].
    rewrite Hout. apply elem_of_app. right. by left.
  - left. by rewrite (restartQuery_draining qid response s l1 x l2).
Qed.

(** X11: the sent count counts what went out through the socket.  In
    every reachable state it is the number of requests handed to the socket
    so far, modulo 2^64; and one delivered event hands the socket at most
    one more request, and none once sending is off. *)
Theorem sent_count_counts_requests s :
  reachable s →
  queries_sent_ s = Z.of_nat (length (sent_log s)) mod 2 ^ 64 ∧
  ∀ ev,
    sent_log (state_of (deliver ev s)) = sent_log s ∨
    keep_sending_ s = true ∧
    ∃ w, sent_log (state_of (deliver ev s)) = w :: sent_log s.
Proof.
  intros (c & _ & _ & Hsent & _)%reachable_counters_inv.
  split; [by rewrite <-sent_total_log|].
  intros ev.
  destruct (deliver_cases ev s)
    as [(? & _ & _ & ->)|[(? & m & _ & _ & ->)|[(? & qev & _ & _ & _ & ->)
       |[(? & _ & ->)|(_ & ->)]]]]; cbn [state_of]; auto.
  - destruct (sent_log_restartQuery (msg_qid m) (Some m) (set_response_ m s))
      as [Hsame|(Hkeep & x0 & _ & Hcons)]; [by left|right].
    split; [done|]. by eexists.
  - destruct (sent_log_restartQuery (QueryEvent.qid_ qev) None s)
      as [Hsame|(Hkeep & x0 & _ & Hcons)]; [by left|right].
    split; [done|]. by eexists.
Qed.

Lemma sent_count_counts_requests_witness :
  queries_sent_ (state_of (deliver (QueryTimerExpired 2) example_running))
  = Z.of_nat
      (length (sent_log (state_of (deliver (QueryTimerExpired 2)
                                     example_running)))) mod 2 ^ 64 ∧
  ∀ ev,
    sent_log (state_of (deliver ev
                          (state_of (deliver (QueryTimerExpired 2)
                                       example_running))))
    = sent_log (state_of (deliver (QueryTimerExpired 2) example_running)) ∨
    keep_sending_ (state_of (deliver (QueryTimerExpired 2) example_running))
    = true ∧
    ∃ w, sent_log (state_of (deliver ev
                               (state_of (deliver (QueryTimerExpired 2)
                                            example_running))))
         = w :: sent_log (state_of (deliver (QueryTimerExpired 2)
                                      example_running)).
Proof.
  apply (sent_count_counts_requests
           (state_of (deliver (QueryTimerExpired 2) example_running))).
  apply reach_deliver, reach_run_setup; [apply reach_new|by vm_compute].
Defined.

(** ** Identifiers *)

Lemma flight_inv_config s s' :
  flight_inv s →
  udp_socket_ s' = udp_socket_ s → outstanding_ s' = outstanding_ s →
  qid_ s' = qid_ s →
  flight_inv s'.
Proof.
  unfold flight_inv, sent_log, window_ids. intros Hs Hk Ho Hq.
  by rewrite Hk, Ho, Hq.
Qed.

Lemma ids_started_slots q t l :
  QueryEvent.qid_ <$> started_slots q t l
  = (λ i, Nat.iter i qid_incr q) <$> seq 0 (length l).
Proof.
  revert q. induction l as [|x l IH]; intros q; [done|].
  cbn [started_slots length seq]. rewrite !fmap_cons, IH. f_equal.
  rewrite <-fmap_S_seq, <-list_fmap_compose.
  apply list_fmap_ext. intros _ i _. cbn [compose].
  by rewrite Nat.iter_succ_r.
Qed.

Lemma flight_inv_run_setup now s :
  udp_socket_ s = None → flight_inv s → flight_inv (run_setup now s).
Proof.
  intros Hk (Hnone & Hqid & _ & _).
  specialize (Hnone Hk). unfold sent_log in Hqid. rewrite Hk in Hqid.
  cbn in Hqid.
  rewrite run_setup_eq. unfold flight_inv, sent_log, window_ids.
  cbn [udp_socket_ qid_ outstanding_ sock_sent].
  rewrite Hnone, Hqid. cbn [app].
  rewrite length_rev, length_initial_queries, length_fresh_slots.
  split_and!.
  - discriminate.
  - apply iter_qid_incr_0.
  - intros i w. rewrite rev_involutive, initial_queries_lookup.
    destruct (fresh_slots _ _ !! i) as [x|]; [|done].
    intros [= <-]. cbn. apply iter_qid_incr_0.
  - intros Hlen. rewrite ids_started_slots, length_fresh_slots. split.
    + apply NoDup_fmap_2_strong; [|apply NoDup_seq].
      intros i j [_ Hi]%elem_of_seq [_ Hj]%elem_of_seq.
      rewrite !iter_qid_incr_0, !Z.mod_small by lia. lia.
    + apply Forall_fmap, Forall_forall. intros i [_ Hi]%elem_of_seq.
      cbn [compose]. rewrite iter_qid_incr_0, Z.mod_small by lia. lia.
Qed.

Lemma flight_inv_restartQuery qid response s :
  flight_inv s → flight_inv (restartQuery qid response s).
Proof.
  intros Hs.
  destruct (restartQuery_cases qid s) as [Hno|(l1 & x & l2 & Hout & Hl1 & Hx)].
  { by rewrite restartQuery_no_match. }
  destruct Hs as (Hnone & Hqid & Hlog & Hflight).
  destruct (udp_socket_ s) as [k|] eqn:Hk;
    [|by rewrite Hnone in Hout by done; destruct l1].
  unfold sent_log, window_ids in *. rewrite Hk in *. rewrite Hout in Hflight.
  destruct (keep_sending_ s) eqn:Hkeep.
  - rewrite (restartQuery_sending qid response s l1 x l2) by done.
    unfold flight_inv, sent_log, window_ids.
    cbn -[Z.of_nat QID_MOD]. rewrite Hk. cbn -[Z.of_nat QID_MOD].
    split_and!.
    + discriminate.
    + rewrite Hqid. unfold qid_incr. rewrite Zplus_mod_idemp_l.
      f_equal. lia.
    + intros i w.
      destruct (decide (i < length (rev (sock_sent k)))%nat) as [Hi|Hi].
      * rewrite lookup_app_l by done. apply Hlog.
      * rewrite lookup_app_r by lia.
        destruct (i - length (rev (sock_sent k)))%nat as [|j] eqn:Hj; [|done].
        intros [= <-]. cbn. rewrite Hqid. f_equal.
        rewrite length_rev in Hi, Hj. lia.
    + intros Hlen.
      destruct Hflight as [Hnodup Hbelow]; [lia|].
      rewrite Z.mod_small in Hqid by (unfold QID_MOD, QID_BITS in *; lia).
      rewrite fmap_app, fmap_cons in Hnodup, Hbelow.
      rewrite <-Permutation_middle in Hnodup, Hbelow.
      apply NoDup_cons in Hnodup as [_ Hnodup].
      apply Forall_cons in Hbelow as [_ Hbelow].
      rewrite fmap_app, (comm (++)). split.
      * apply NoDup_cons. split; [|done].
        intros Hin. rewrite Forall_forall in Hbelow.
        specialize (Hbelow _ Hin). lia.
      * constructor; [lia|].
        eapply Forall_impl; [exact Hbelow|]. intros q Hq. cbn in Hq. lia.
  - rewrite (restartQuery_draining qid response s l1 x l2) by done.
    unfold flight_inv, sent_log, window_ids.
    cbn -[Z.of_nat QID_MOD]. rewrite Hk.
    split_and!; [discriminate|done|done|].
    intros Hlen. destruct Hflight as [Hnodup Hbelow]; [done|].
    rewrite fmap_app, fmap_cons in Hnodup, Hbelow.
    rewrite <-Permutation_middle in Hnodup, Hbelow.
    apply NoDup_cons in Hnodup as [_ Hnodup].
    apply Forall_cons in Hbelow as [_ Hbelow].
    by rewrite fmap_app.
Qed.

Lemma flight_inv_setter what assign s :
  (∀ s, udp_socket_ (assign s) = udp_socket_ s ∧
        outstanding_ (assign s) = outstanding_ s ∧
        qid_ (assign s) = qid_ s) →
  flight_inv s →
  flight_inv
    (state_of (if negb (is_special (start_time_ s))
               then Throw (A := unit) (DispatcherError what) s
               else Return tt (assign s))).
Proof.
  intros Hassign Hs. destruct (negb _); cbn [state_of]; [done|].
  destruct (Hassign s) as (? & ? & ?). by eapply flight_inv_config.
Qed.

Lemma reachable_flight_inv s : reachable s → flight_inv s.
Proof.
  induction 1 as [d mgr cr|a s _ IH|p s _ IH|t s _ IH|now s _ IH Hk
                 |ev s _ IH|finish s _ IH].
  - split_and!; [done|done|by intros [|?] ?|].
    intros _. split; constructor.
  - by apply flight_inv_setter.
  - by apply flight_inv_setter.
  - by apply flight_inv_setter.
  - by apply flight_inv_run_setup.
  - revert IH. apply (deliver_preserves flight_inv).
    + intros m s0 Hs0. by eapply flight_inv_config.
    + intros. by apply flight_inv_restartQuery.
    + intros s0 Hs0. by eapply flight_inv_config.
  - by eapply flight_inv_config.
Qed.

(** X12: identifiers go out in sequence.  In every reachable state the
    requests sent so far carry, in the order they were sent, the
    identifiers 0, 1, 2, ... modulo 2^16, and the send counter is the number
    of requests sent, modulo 2^16. *)
Theorem identifiers_sent_in_sequence s :
  reachable s →
  qid_ s = Z.of_nat (length (sent_log s)) mod 2 ^ 16 ∧
  ∀ (i : nat) w, rev (sent_log s) !! i = Some w →
                 wire_qid w = Z.of_nat i mod 2 ^ 16.
Proof. intros (_ & Hqid & Hlog & _)%reachable_flight_inv. done. Qed.

Lemma identifiers_sent_in_sequence_witness :
  qid_ (state_of (deliver (QueryTimerExpired 2) example_running))
  = Z.of_nat
      (length (sent_log (state_of (deliver (QueryTimerExpired 2)
                                     example_running)))) mod 2 ^ 16 ∧
  ∀ (i : nat) w,
    rev (sent_log (state_of (deliver (QueryTimerExpired 2) example_running)))
      !! i = Some w →
    wire_qid w = Z.of_nat i mod 2 ^ 16.
Proof.
  apply (identifiers_sent_in_sequence
           (state_of (deliver (QueryTimerExpired 2) example_running))).
  apply reach_deliver, reach_run_setup; [apply reach_new|by vm_compute].
Defined.

(** X13: identifiers are unique in flight.  In every reachable state in
    which no more than 2^16 requests have been sent, no two slots of the
    window carry the same identifier, and each carries the identifier of a
    request that has been sent. *)
Theorem identifiers_unique_in_flight s :
  reachable s →
  Z.of_nat (length (sent_log s)) ≤ 2 ^ 16 →
  NoDup (window_ids s) ∧
  Forall (λ q, 0 ≤ q < Z.of_nat (length (sent_log s))) (window_ids s).
Proof. intros (_ & _ & _ & Hflight)%reachable_flight_inv. exact Hflight. Qed.

Lemma identifiers_unique_in_flight_witness :
  NoDup (window_ids (state_of (deliver (QueryTimerExpired 2) example_running))) ∧
  Forall
    (λ q, 0 ≤ q < Z.of_nat
                     (length (sent_log (state_of (deliver (QueryTimerExpired 2)
                                                    example_running)))))
    (window_ids (state_of (deliver (QueryTimerExpired 2) example_running))).
Proof.
  apply (identifiers_unique_in_flight
           (state_of (deliver (QueryTimerExpired 2) example_running))).
  - apply reach_deliver, reach_run_setup; [apply reach_new|by vm_compute].
  - by vm_compute.
Defined.

(** ** Draining to the end *)

Lemma drain_loop l : ∀ s rest,
  keep_sending_ s = false →
  stop_calls (msg_mgr_ s) = 0%nat →
  outstanding_ s = l →
  l ≠ [] →
  MessageManager_run (timeouts_of l ++ rest) s =
    Return tt
      (mkImpl (MessageManager_stop (msg_mgr_ s))
         (qryctx_creator_ s) (udp_socket_ s)
         (session_timer_ s) (server_address_ s) (server_port_ s)
         (test_duration_ s) (query_timeout_ s) false (window_ s)
         (qid_ s) (response_ s) [] (queries_sent_ s)
         (queries_completed_ s) (start_time_ s) (end_time_ s)).
Proof.
  induction l as [|x l IH]; intros s rest Hkeep Hstop Hout Hne; [done|].
  cbn [timeouts_of fmap list_fmap app MessageManager_run].
  unfold stopped at 1. rewrite Hstop.
  rewrite bool_decide_eq_false_2 by (intros Hn; by apply Hn).
  assert (deliver (QueryTimerExpired (QueryEvent.this x)) s
          = Return tt (restartQuery (QueryEvent.qid_ x) None s)) as ->.
  { cbn [deliver]. rewrite Hout. cbn [list_find]. by rewrite decide_True. }
  rewrite (restartQuery_draining _ None s [] x l);
    [|done|constructor|by apply matchResponse_qid|done].
  cbn [app completed_after].
  destruct l as [|y l].
  - rewrite bool_decide_eq_true_2 by done.
    destruct rest; cbn [fmap list_fmap app MessageManager_run]; unfold stopped;
      cbn [msg_mgr_ MessageManager_stop stop_calls];
      rewrite bool_decide_eq_true_2 by done; done.
  - rewrite bool_decide_eq_false_2 by done.
    change ((λ qev, QueryTimerExpired (QueryEvent.this qev)) <$> y :: l)
      with (timeouts_of (y :: l)).
    rewrite IH by done. done.
Qed.

(** X14: a run in which nothing is answered.  On a dispatcher not yet run,
    with a window of at least one slot: when the session timer fires first
    and then the timers of the slots expire in window order, run returns
    (whatever events would follow), with an empty window, every initial
    query sent and none completed, stop called once, and both times
    recorded. *)
Theorem run_drains_when_all_slots_time_out start finish rest s :
  pristine s →
  0 < window_ s →
  stop_calls (msg_mgr_ s) = 0%nat →
  ∃ s',
    Dispatcher.run start finish
      (SessionTimerExpired
         :: timeouts_of (outstanding_ (run_setup start s)) ++ rest) s
    = Return tt s' ∧
    outstanding_ s' = [] ∧
    queries_sent_ s' = window_ s ∧
    queries_completed_ s' = 0 ∧
    stop_calls (msg_mgr_ s') = 1%nat ∧
    start_time_ s' = time_point start ∧
    end_time_ s' = time_point finish.
Proof.
  intros Hs Hwin Hstop.
  pose proof Hs as (Hsock & _ & _ & Hsent0 & Hcompl0 & _).
  pose proof (run_setup_sent start s Hs) as Hsent.
  rewrite Hsent0, Z.add_0_l in Hsent.
  assert (stop_calls (msg_mgr_ (run_setup start s)) = 0%nat) as Hstop0
    by (by rewrite run_setup_eq).
  assert (queries_completed_ (run_setup start s) = 0) as Hcompl
    by (by rewrite run_setup_eq).
  assert (start_time_ (run_setup start s) = time_point start) as Htime
    by (by rewrite run_setup_eq).
  assert (outstanding_ (run_setup start s) ≠ []) as Hne.
  { intros Hnil. apply (f_equal length) in Hnil.
    rewrite run_setup_outstanding, length_started_slots, length_fresh_slots
      in Hnil by done.
    cbn in Hnil. lia. }
  unfold Dispatcher.run, DispatcherImpl_run, mbind, M_bind, bind, assert,
    modify.
  rewrite bool_decide_eq_true_2 by done.
  generalize dependent (run_setup start s). intros s0 Hsent Hstop0 Hcompl Htime Hne.
  cbn [MessageManager_run]. unfold stopped at 1. rewrite Hstop0.
  rewrite bool_decide_eq_false_2 by (intros Hn; by apply Hn).
  cbn [deliver modify].
  rewrite (drain_loop (outstanding_ s0) (sessionTimerCallback s0) rest)
    by done.
  eexists. split; [reflexivity|].
  cbn. by rewrite Hstop0.
Qed.

Lemma run_drains_when_all_slots_time_out_witness :
  ∃ s',
    Dispatcher.run 1000 2000
      (SessionTimerExpired
         :: timeouts_of (outstanding_ (run_setup 1000 example_new))
         ++ [SocketEvent []]) example_new
    = Return tt s' ∧
    outstanding_ s' = [] ∧
    queries_sent_ s' = window_ example_new ∧
    queries_completed_ s' = 0 ∧
    stop_calls (msg_mgr_ s') = 1%nat ∧
    start_time_ s' = time_point 1000 ∧
    end_time_ s' = time_point 2000.
Proof.
  apply (run_drains_when_all_slots_time_out 1000 2000 [SocketEvent []]
           example_new).
  - vm_compute. by split_and!.
  - by vm_compute.
  - by vm_compute.
Defined.

(** ** Accounting for every request *)

Lemma accounted_config s s' :
  accounted s →
  udp_socket_ s' = udp_socket_ s → outstanding_ s' = outstanding_ s →
  queries_sent_ s' = queries_sent_ s →
  queries_completed_ s' = queries_completed_ s →
  accounted s'.
Proof.
  intros (c & ? & ? & ? & ? & ?) Hk Ho Hs Hc. exists c.
  unfold sent_total in *. rewrite Hk, Ho, Hs, Hc. by split_and!.
Qed.

Lemma accounted_run_setup now s : pristine s → accounted (run_setup now s).
Proof.
  intros (Hk & Hout & _ & Hsent & Hcompl & _).
  exists 0. rewrite run_setup_eq. unfold sent_total.
  cbn [queries_completed_ queries_sent_ udp_socket_ outstanding_ sock_sent].
  rewrite Hout, Hsent, Hcompl. cbn [app].
  rewrite length_rev, length_initial_queries, length_started_slots,
    length_fresh_slots.
  split_and!; [done|done| |lia|done].
  by rewrite (iter_size_incr _ _ 0).
Qed.

Lemma accounted_response qid m s :
  accounted s → accounted (restartQuery qid (Some m) s).
Proof.
  intros (c & Hc & Hcompl & Hsent & Hsum & Hnone).
  destruct (restartQuery_cases qid s) as [Hno|(l1 & x & l2 & Hout & Hl1 & Hx)].
  { rewrite restartQuery_no_match by done. by exists c. }
  unfold sent_total in *. rewrite Hout in Hsum, Hnone.
  rewrite length_app in Hsum. cbn [length] in Hsum.
  destruct (udp_socket_ s) as [k|] eqn:Hk;
    [|by pose proof (Hnone eq_refl); destruct l1].
  exists (c + 1).
  destruct (keep_sending_ s) eqn:Hkeep.
  - rewrite (restartQuery_sending qid (Some m) s l1 x l2) by done.
    unfold sent_total. cbn -[Z.of_nat]. rewrite Hk. cbn -[Z.of_nat].
    split_and!; [lia| | | |done].
    + by rewrite Hcompl, size_incr_mod.
    + rewrite Hsent, size_incr_mod. f_equal. lia.
    + rewrite length_app. lia.
  - rewrite (restartQuery_draining qid (Some m) s l1 x l2) by done.
    unfold sent_total. cbn -[Z.of_nat]. rewrite Hk.
    split_and!; [lia| |done| |done].
    + by rewrite Hcompl, size_incr_mod.
    + rewrite length_app. lia.
Qed.

Lemma accounted_deliver_all evs : ∀ s,
  Forall (λ ev, ∀ slot, ev ≠ QueryTimerExpired slot) evs →
  accounted s → accounted (deliver_all evs s).
Proof.
  induction evs as [|ev evs IH]; intros s Hevs Hs; [done|].
  apply Forall_cons in Hevs as [Hev Hevs].
  cbn [deliver_all foldl]. apply IH; [done|].
  destruct (deliver_cases ev s)
    as [(? & _ & _ & ->)|[(? & m & _ & _ & ->)|[(slot & ? & -> & _)
       |[(slot & -> & _)|(_ & ->)]]]]; cbn [state_of].
  - by eapply accounted_config.
  - apply accounted_response. by eapply accounted_config.
  - by destruct (Hev slot).
  - by destruct (Hev slot).
  - by eapply accounted_config.
Qed.

(** X15: when no slot times out, every request is accounted for.  From the
    set-up of run on, after any sequence of responses (matching or not,
    malformed or not) and session timeouts, and as long as fewer than 2^64
    requests have been sent, the sent count is the completed count plus the
    number of slots in the window; so when the window has emptied, sent
    and completed counts are equal. *)
Theorem sent_is_completed_plus_outstanding now evs s :
  pristine s →
  Forall (λ ev, ∀ slot, ev ≠ QueryTimerExpired slot) evs →
  sent_total (deliver_all evs (run_setup now s)) < 2 ^ 64 →
  queries_sent_ (deliver_all evs (run_setup now s))
  = queries_completed_ (deliver_all evs (run_setup now s))
    + Z.of_nat (length (outstanding_ (deliver_all evs (run_setup now s)))) ∧
  (outstanding_ (deliver_all evs (run_setup now s)) = [] →
   queries_sent_ (deliver_all evs (run_setup now s))
   = queries_completed_ (deliver_all evs (run_setup now s))).
Proof.
  intros Hs Hevs Hlt.
  destruct (accounted_deliver_all evs (run_setup now s) Hevs
              (accounted_run_setup now s Hs))
    as (c & Hc & Hcompl & Hsent & Hsum & _).
  change (2 ^ 64) with SIZE_MOD in Hlt.
  rewrite Hcompl, Hsent.
  rewrite !Z.mod_small by lia.
  clear Hcompl Hsent Hlt.
  split; [lia|]. intros Hnil. rewrite Hnil in Hsum. cbn [length] in Hsum. lia.
Qed.

Lemma sent_is_completed_plus_outstanding_witness :
  queries_sent_
    (deliver_all [SocketEvent ("000" :: "001" :: replicate 10 "000")%byte;
                  SessionTimerExpired;
                  SocketEvent ("000" :: "003" :: replicate 10 "000")%byte]
       (run_setup 1000 example_new))
  = queries_completed_
      (deliver_all [SocketEvent ("000" :: "001" :: replicate 10 "000")%byte;
                    SessionTimerExpired;
                    SocketEvent ("000" :: "003" :: replicate 10 "000")%byte]
         (run_setup 1000 example_new))
    + Z.of_nat
        (length
           (outstanding_
              (deliver_all
                 [SocketEvent ("000" :: "001" :: replicate 10 "000")%byte;
                  SessionTimerExpired;
                  SocketEvent ("000" :: "003" :: replicate 10 "000")%byte]
                 (run_setup 1000 example_new)))) ∧
  (outstanding_
     (deliver_all [SocketEvent ("000" :: "001" :: replicate 10 "000")%byte;
                   SessionTimerExpired;
                   SocketEvent ("000" :: "003" :: replicate 10 "000")%byte]
        (run_setup 1000 example_new)) = [] →
   queries_sent_
     (deliver_all [SocketEvent ("000" :: "001" :: replicate 10 "000")%byte;
                   SessionTimerExpired;
                   SocketEvent ("000" :: "003" :: replicate 10 "000")%byte]
        (run_setup 1000 example_new))
   = queries_completed_
       (deliver_all [SocketEvent ("000" :: "001" :: replicate 10 "000")%byte;
                     SessionTimerExpired;
                     SocketEvent ("000" :: "003" :: replicate 10 "000")%byte]
          (run_setup 1000 example_new))).
Proof.
  apply (sent_is_completed_plus_outstanding 1000
           [SocketEvent ("000" :: "001" :: replicate 10 "000")%byte;
            SessionTimerExpired;
            SocketEvent ("000" :: "003" :: replicate 10 "000")%byte]
           example_new).
  - vm_compute. by split_and!.
  - repeat constructor; discriminate.
  - by vm_compute.
Defined.

(** ** The slots of the window *)

Lemma NoDup_submseteq_inv {A} (l k : list A) : l ⊆+ k → NoDup k → NoDup l.
Proof.
  intros (k0 & Hperm)%submseteq_Permutation Hk. rewrite Hperm in Hk.
  by apply NoDup_app in Hk as (? & _).
Qed.

Lemma slots_inv_config s s' :
  slots_inv s →
  outstanding_ s' = outstanding_ s → qryctx_creator_ s' = qryctx_creator_ s →
  slots_inv s'.
Proof. unfold slots_inv. intros Hs Ho Hc. by rewrite Ho, Hc. Qed.

Lemma slots_inv_run_setup now s : slots_inv s → slots_inv (run_setup now s).
Proof.
  intros [Hnodup Hbelow]. rewrite run_setup_eq. unfold slots_inv.
  cbn [outstanding_ qryctx_creator_ created].
  rewrite this_started_slots, fmap_app, this_fresh_slots.
  rewrite Forall_forall in Hbelow. split.
  - apply NoDup_app. split_and!; [done| |apply NoDup_seq].
    intros i Hi [Hge _]%elem_of_seq. specialize (Hbelow i Hi). lia.
  - apply Forall_app. split; apply Forall_forall.
    + intros i Hi. specialize (Hbelow i Hi). lia.
    + intros i [_ Hlt]%elem_of_seq. lia.
Qed.

Lemma slots_inv_restartQuery qid response s :
  slots_inv s → slots_inv (restartQuery qid response s).
Proof.
  intros [Hnodup Hbelow].
  destruct (restartQuery_window qid response s) as (_ & Hsub & _).
  destruct (same_configuration_restartQuery qid response s)
    as (_ & _ & _ & _ & _ & _ & _ & _ & Hcreator).
  unfold slots_inv. rewrite Hcreator. split.
  - by eapply NoDup_submseteq_inv.
  - rewrite Forall_forall in Hbelow. apply Forall_forall.
    intros i Hi. apply Hbelow. by eapply elem_of_submseteq.
Qed.

Lemma slots_inv_setter what assign s :
  (∀ s, outstanding_ (assign s) = outstanding_ s ∧
        qryctx_creator_ (assign s) = qryctx_creator_ s) →
  slots_inv s →
  slots_inv
    (state_of (if negb (is_special (start_time_ s))
               then Throw (A := unit) (DispatcherError what) s
               else Return tt (assign s))).
Proof.
  intros Hassign Hs. destruct (negb _); cbn [state_of]; [done|].
  destruct (Hassign s) as (? & ?). by eapply slots_inv_config.
Qed.

Lemma reachable_slots_inv s : reachable s → slots_inv s.
Proof.
  induction 1 as [d mgr cr|a s _ IH|p s _ IH|t s _ IH|now s _ IH Hk
                 |ev s _ IH|finish s _ IH].
  - split; constructor.
  - by apply slots_inv_setter.
  - by apply slots_inv_setter.
  - by apply slots_inv_setter.
  - by apply slots_inv_run_setup.
  - revert IH. apply (deliver_preserves slots_inv).
    + intros m s0 Hs0. by eapply slots_inv_config.
    + intros. by apply slots_inv_restartQuery.
    + intros s0 Hs0. by eapply slots_inv_config.
  - by eapply slots_inv_config.
Qed.

(** X16: in every reachable state the slots of the window are distinct,
    each with a context of its own; and a slot that a restart erases while
    draining is gone for good: whatever events follow, no slot with its
    context is in the window again. *)
Theorem erased_slot_never_returns s qid response l1 x l2 evs :
  reachable s →
  outstanding_ s = l1 ++ x :: l2 →
  Forall (λ ev, QueryEvent.qid_ ev ≠ qid) l1 →
  QueryEvent.qid_ x = qid →
  keep_sending_ s = false →
  NoDup (QueryEvent.this <$> outstanding_ s) ∧
  QueryEvent.this x ∉
    QueryEvent.this <$>
      outstanding_ (deliver_all evs (restartQuery qid response s)).
Proof.
  intros [Hnodup _]%reachable_slots_inv Hout Hl1 Hx Hkeep.
  split; [done|].
  assert (restartQuery qid response s = _) as Heq
    by (apply (restartQuery_draining qid response s l1 x l2);
        auto using no_match_qid, matchResponse_qid).
  destruct (deliver_all_nothing_sent evs (restartQuery qid response s))
    as (_ & _ & _ & _ & Hsub); [by rewrite Heq|].
  rewrite Heq in Hsub at 2. cbn [outstanding_] in Hsub.
  intros Hin.
  eapply elem_of_sublist in Hin; [|by apply fmap_sublist].
  rewrite Hout, fmap_app, fmap_cons in Hnodup.
  rewrite <-Permutation_middle in Hnodup.
  apply NoDup_cons in Hnodup as [Hnotin _].
  by rewrite fmap_app in Hin.
Qed.

Lemma erased_slot_never_returns_witness :
  NoDup (QueryEvent.this <$>
           outstanding_ (state_of (deliver SessionTimerExpired example_running))) ∧
  QueryEvent.this (QueryEvent.mk (mkCtx 1 1) 1 (mkTimer [5])) ∉
    QueryEvent.this <$>
      outstanding_
        (deliver_all [QueryTimerExpired 1; SocketEvent []]
           (restartQuery 1 None
              (state_of (deliver SessionTimerExpired example_running)))).
Proof.
  apply (erased_slot_never_returns
           (state_of (deliver SessionTimerExpired example_running)) 1 None
           [QueryEvent.mk (mkCtx 0 1) 0 (mkTimer [5])]
           (QueryEvent.mk (mkCtx 1 1) 1 (mkTimer [5]))
           [QueryEvent.mk (mkCtx 2 1) 2 (mkTimer [5])]
           [QueryTimerExpired 1; SocketEvent []]).
  - apply reach_deliver, reach_run_setup; [apply reach_new|by vm_compute].
  - by vm_compute.
  - repeat constructor; discriminate.
  - by vm_compute.
  - by vm_compute.
Defined.

(** ** The timers of the slots *)

Lemma slot_armed_start q t x :
  slot_armed t x → slot_armed t (QueryEvent.start q t x).1.
Proof. unfold slot_armed. cbn. by intros ->. Qed.

Lemma started_slots_armed q t l :
  Forall (slot_armed t) l →
  Forall (λ ev, slot_armed t ev ∧ (0 < ctx_started (QueryEvent.ctx_ ev))%nat)
    (started_slots q t l).
Proof.
  intros Hl. revert q. induction Hl as [|x l Hx _ IH]; intros q;
    cbn [started_slots]; constructor; [|apply IH].
  split; [by apply slot_armed_start|cbn; lia].
Qed.

Lemma timers_inv_config s s' :
  timers_inv s →
  udp_socket_ s' = udp_socket_ s → outstanding_ s' = outstanding_ s →
  query_timeout_ s' = query_timeout_ s →
  timers_inv s'.
Proof. unfold timers_inv. intros Hs Hk Ho Ht. by rewrite Hk, Ho, Ht. Qed.

Lemma timers_inv_run_setup now s : timers_inv s → timers_inv (run_setup now s).
Proof.
  intros [Harmed _]. rewrite run_setup_eq. unfold timers_inv.
  cbn [outstanding_ query_timeout_ udp_socket_].
  assert (Forall (slot_armed (query_timeout_ s))
            (outstanding_ s ++
             fresh_slots (created (qryctx_creator_ s)) (Z.to_nat (window_ s))))
    as Hpool.
  { apply Forall_app. split; [done|].
    unfold fresh_slots. apply Forall_fmap, Forall_forall. by intros i _. }
  apply (started_slots_armed (qid_ s)) in Hpool.
  split; [|intros _]; (eapply Forall_impl; [exact Hpool|]);
    by intros ev [? ?].
Qed.

Lemma timers_inv_restartQuery qid response s :
  timers_inv s → timers_inv (restartQuery qid response s).
Proof.
  intros [Harmed Hout1].
  destruct (restartQuery_cases qid s) as [Hno|(l1 & x & l2 & Hout & Hl1 & Hx)].
  { by rewrite restartQuery_no_match. }
  rewrite Hout in Harmed, Hout1.
  apply Forall_app in Harmed as [Ha1 [Hax Ha2]%Forall_cons].
  destruct (keep_sending_ s) eqn:Hkeep.
  - rewrite (restartQuery_sending qid response s l1 x l2) by done.
    unfold timers_inv. cbn [outstanding_ query_timeout_ udp_socket_]. split.
    + constructor; [by apply slot_armed_start|by apply Forall_app].
    + intros [k Hk]. destruct (udp_socket_ s) as [k0|] eqn:Hk0; [|done].
      specialize (Hout1 (mk_is_Some _ _ eq_refl)).
      apply Forall_app in Hout1 as [Ho1 [_ Ho2]%Forall_cons].
      constructor; [cbn; lia|by apply Forall_app].
  - rewrite (restartQuery_draining qid response s l1 x l2) by done.
    unfold timers_inv. cbn [outstanding_ query_timeout_ udp_socket_]. split.
    + by apply Forall_app.
    + intros Hk.
      specialize (Hout1 Hk).
      apply Forall_app in Hout1 as [Ho1 [_ Ho2]%Forall_cons].
      by apply Forall_app.
Qed.

Lemma timers_inv_setter what assign s :
  (∀ s, udp_socket_ (assign s) = udp_socket_ s ∧
        outstanding_ (assign s) = outstanding_ s ∧
        query_timeout_ (assign s) = query_timeout_ s) →
  timers_inv s →
  timers_inv
    (state_of (if negb (is_special (start_time_ s))
               then Throw (A := unit) (DispatcherError what) s
               else Return tt (assign s))).
Proof.
  intros Hassign Hs. destruct (negb _); cbn [state_of]; [done|].
  destruct (Hassign s) as (? & ? & ?). by eapply timers_inv_config.
Qed.

Lemma reachable_timers_inv s : reachable s → timers_inv s.
Proof.
  induction 1 as [d mgr cr|a s _ IH|p s _ IH|t s _ IH|now s _ IH Hk
                 |ev s _ IH|finish s _ IH].
  - split; [constructor|intros _; constructor].
  - by apply timers_inv_setter.
  - by apply timers_inv_setter.
  - by apply timers_inv_setter.
  - by apply timers_inv_run_setup.
  - revert IH. apply (deliver_preserves timers_inv).
    + intros m s0 Hs0. by eapply timers_inv_config.
    + intros. by apply timers_inv_restartQuery.
    + intros s0 Hs0. by eapply timers_inv_config.
  - by eapply timers_inv_config.
Qed.

(** X17: no slot waits without a timer.  In every reachable state, each
    slot of the window has had its timer started once for every request its
    context has rendered, each time with the query timeout; and from the
    set-up of run on, every slot of the window has a request out. *)
Theorem outstanding_slots_are_armed s :
  reachable s →
  Forall
    (λ ev, timer_started (QueryEvent.timer_ ev)
           = replicate (ctx_started (QueryEvent.ctx_ ev)) (query_timeout_ s))
    (outstanding_ s) ∧
  (is_Some (udp_socket_ s) →
   Forall (λ ev, (0 < ctx_started (QueryEvent.ctx_ ev))%nat) (outstanding_ s)).
Proof. intros Hs. exact (reachable_timers_inv s Hs). Qed.

Lemma outstanding_slots_are_armed_witness :
  Forall
    (λ ev, timer_started (QueryEvent.timer_ ev)
           = replicate (ctx_started (QueryEvent.ctx_ ev))
               (query_timeout_
                  (state_of (deliver (QueryTimerExpired 2) example_running))))
    (outstanding_ (state_of (deliver (QueryTimerExpired 2) example_running))) ∧
  (is_Some (udp_socket_
              (state_of (deliver (QueryTimerExpired 2) example_running))) →
   Forall (λ ev, (0 < ctx_started (QueryEvent.ctx_ ev))%nat)
     (outstanding_ (state_of (deliver (QueryTimerExpired 2) example_running)))).
Proof.
  apply (outstanding_slots_are_armed
           (state_of (deliver (QueryTimerExpired 2) example_running))).
  apply reach_deliver, reach_run_setup; [apply reach_new|by vm_compute].
Defined.
